(** * The resilient fetch helper of the manga aggregator

    A shallow embedding of [fetchWithTimeout] and [fetchWithRetry], the two
    helpers every route handler of the server goes through, and the
    properties the specification states about them.

    The helpers are asynchronous JavaScript. One logical call is modelled as
    a computation over a [World]: a millisecond clock, the pending timers,
    the transport calls in flight, and the trace of the observable events
    (timers armed and cleared, transport calls, aborts, console output).
    The underlying transport ([fetch] of node-fetch) is a script that tells,
    for the n-th call issued, what the network would do if left alone.

    Around the helpers the file also embeds the code of the server that
    decides something on its own: the image proxy route, the popularity tag,
    the choice of [/new-manga], the date and the genre filter sent upstream;
    and the click handlers of the front-end script, over class lists. *)

From Stdlib Require Import ZArith List Ascii String Bool Lia DecimalString.
Import ListNotations.

Local Open Scope Z_scope.

(** ** JavaScript values that reach the helpers *)

#[warnings="-register-all"] Inductive value : Type :=
| VUndefined
| VString (s : string)
| VNumber (n : Z)
| VObject (props : list (string * value))
| VSignal (controller : nat).

(** A plain object: its own enumerable properties, in property order. *)
Definition object : Type := list (string * value).

(** [{ ...o, k: v }]: the properties of [o] are copied in order, then [k] is
    assigned; an existing property keeps its place, a new one goes last. *)
Fixpoint obj_set (k : string) (v : value) (o : object) : object :=
  match o with
  | [] => [(k, v)]
  | (k', v') :: o' =>
      if String.eqb k' k then (k', v) :: o' else (k', v') :: obj_set k v o'
  end.

Fixpoint obj_get (k : string) (o : object) : option value :=
  match o with
  | [] => None
  | (k', v') :: o' => if String.eqb k' k then Some v' else obj_get k o'
  end.

(** The properties of an object other than [k], in order. *)
Definition obj_others (k : string) (o : object) : object :=
  filter (fun p => negb (String.eqb (fst p) k)) o.

(** The response object of the transport; [ok] and [status] are the two
    properties the helpers read. *)
Record Response : Type := mkResponse {
  status : Z;
  ok : bool;
  body : string
}.

(** node-fetch sets [ok] for the statuses 200 to 299. *)
Definition http_response (st : Z) (b : string) : Response :=
  mkResponse st ((200 <=? st) && (st <? 300)) b.

(** What a rejected promise or a [throw] carries. *)
Inductive error : Type :=
| FetchError (message : string)   (* the transport rejected on its own *)
| AbortError                      (* the transport rejected because of the signal *)
| Error (message : string).       (* [new Error(message)] *)

(** Template literals print numbers in decimal. *)
Definition string_of_Z (z : Z) : string :=
  NilZero.string_of_int (Z.to_int z).

(** ** The world of one logical call *)

(** What the network does with one transport call when nobody aborts it. *)
Inductive outcome : Type :=
| Responds (latency : Z) (r : Response)
| Rejects (latency : Z) (message : string)
| Hangs.

Inductive callback : Type :=
| CbAbort (controller : nat)      (* [() => controller.abort()] *)
| CbResolve.                      (* [resolve] of the backoff promise *)

Inductive event : Type :=
| EvSetTimeout (timer : nat) (delay : Z) (cb : callback)
| EvClearTimeout (timer : nat)
| EvFetch (call : nat) (url : string) (options : object)
| EvAbort (controller : nat)
| EvLog (message : string).

Record timer_entry : Type := mkTimer {
  timer_id : nat;
  timer_due : Z;
  timer_cb : callback
}.

Record World : Type := mkWorld {
  clock : Z;                      (* milliseconds *)
  next_id : nat;                  (* next fresh controller or timer *)
  timers : list timer_entry;      (* armed and not yet fired or cleared *)
  inflight : list nat;            (* transport calls whose transfer is not over *)
  calls : nat;                    (* transport calls issued so far *)
  transport : nat -> outcome;     (* the script of the network *)
  trace : list event              (* oldest first *)
}.

(** ** Computations: state, exceptions, and awaits that may never resume *)

Inductive completion (A : Type) : Type :=
| Normal (a : A)
| Throw (e : error).
Arguments Normal {A} a.
Arguments Throw {A} e.

(** [None]: the computation never completes. *)
Definition M (A : Type) : Type := World -> option (completion A * World).

Definition ret {A} (a : A) : M A := fun w => Some (Normal a, w).

Definition throw {A} (e : error) : M A := fun w => Some (Throw e, w).

Definition never {A} : M A := fun _ => None.

Definition bind {A B} (m : M A) (f : A -> M B) : M B :=
  fun w =>
    match m w with
    | Some (Normal a, w') => f a w'
    | Some (Throw e, w') => Some (Throw e, w')
    | None => None
    end.

(** [try { m } catch (error) { h error }] *)
Definition try_catch {A} (m : M A) (h : error -> M A) : M A :=
  fun w =>
    match m w with
    | Some (Normal a, w') => Some (Normal a, w')
    | Some (Throw e, w') => h e w'
    | None => None
    end.

Notation "x <- m ;; k" := (bind m (fun x => k))
  (at level 61, m at next level, right associativity).
Notation "m ;;; k" := (bind m (fun _ => k))
  (at level 61, right associativity).

(** ** The runtime primitives the helpers call *)

Definition emit (e : event) (w : World) : World :=
  mkWorld (clock w) (next_id w) (timers w) (inflight w) (calls w)
          (transport w) (trace w ++ [e]).

(** [new AbortController()] *)
Definition new_AbortController : M nat :=
  fun w =>
    Some (Normal (next_id w),
          mkWorld (clock w) (S (next_id w)) (timers w) (inflight w) (calls w)
                  (transport w) (trace w)).

(** Node runs a timer whose delay is below 1 or above 2^31 - 1 after 1 ms. *)
Definition timer_delay (delay : Z) : Z :=
  if (delay <? 1) || (2147483647 <? delay) then 1 else delay.

(** [setTimeout(cb, delay)] *)
Definition setTimeout (cb : callback) (delay : Z) : M nat :=
  fun w =>
    let id := next_id w in
    Some (Normal id,
          mkWorld (clock w) (S id)
                  (mkTimer id (clock w + timer_delay delay) cb :: timers w)
                  (inflight w) (calls w) (transport w)
                  (trace w ++ [EvSetTimeout id delay cb])).

Definition drop_timer (id : nat) (ts : list timer_entry) : list timer_entry :=
  filter (fun t => negb (Nat.eqb (timer_id t) id)) ts.

(** [clearTimeout(id)] *)
Definition clearTimeout (id : nat) : M unit :=
  fun w =>
    Some (Normal tt,
          mkWorld (clock w) (next_id w) (drop_timer id (timers w))
                  (inflight w) (calls w) (transport w)
                  (trace w ++ [EvClearTimeout id])).

(** [console.log(message)] *)
Definition console_log (message : string) : M unit :=
  fun w => Some (Normal tt, emit (EvLog message) w).

(** [await new Promise((resolve) => setTimeout(resolve, delay))] *)
Definition sleep (delay : Z) : M unit :=
  id <- setTimeout CbResolve delay ;;
  fun w =>
    Some (Normal tt,
          mkWorld (clock w + timer_delay delay) (next_id w)
                  (drop_timer id (timers w)) (inflight w) (calls w)
                  (transport w) (trace w)).

(** The armed timer that will abort the controller of [options.signal]. *)
Definition abort_timer (options : object) (ts : list timer_entry)
  : option timer_entry :=
  match obj_get "signal" options with
  | Some (VSignal c) =>
      find (fun t => match timer_cb t with
                     | CbAbort c' => Nat.eqb c' c
                     | CbResolve => false
                     end) ts
  | _ => None
  end.

Definition drop_call (n : nat) (cs : list nat) : list nat :=
  filter (fun c => negb (Nat.eqb c n)) cs.

(** The promise of the transport call settles on its own after [latency].
    A rejection ends the call. A response does not: the promise resolves
    when the headers are in, the body is still to be transferred, and the
    call stays in flight until somebody reads the body to its end. *)
Definition settle {A} (n : nat) (latency : Z) (c : completion A) : M A :=
  fun w =>
    Some (c,
          mkWorld (clock w + latency) (next_id w) (timers w)
                  (match c with
                   | Normal _ => inflight w
                   | Throw _ => drop_call n (inflight w)
                   end)
                  (calls w) (transport w) (trace w)).

(** The abort timer fires first: the controller aborts, the transport call
    is torn down and its promise rejects. *)
Definition fire_abort {A} (n : nat) (t : timer_entry) : M A :=
  fun w =>
    Some (Throw AbortError,
          mkWorld (timer_due t) (next_id w) (drop_timer (timer_id t) (timers w))
                  (drop_call n (inflight w)) (calls w) (transport w)
                  (trace w ++ match timer_cb t with
                              | CbAbort c => [EvAbort c]
                              | CbResolve => []
                              end)).

(** Does a call issued now and settling after [latency] beat the timer? A
    timer due at the very instant of the settlement runs first. *)
Definition beats (w : World) (latency : Z) (t : option timer_entry) : bool :=
  match t with
  | Some t => clock w + latency <? timer_due t
  | None => true
  end.

(** [await fetch(url, options)] *)
Definition fetch (url : string) (options : object) : M Response :=
  fun w =>
    let n := calls w in
    let w1 := mkWorld (clock w) (next_id w) (timers w) (n :: inflight w)
                      (S n) (transport w)
                      (trace w ++ [EvFetch n url options]) in
    let t := abort_timer options (timers w1) in
    let aborted : M Response :=
      match t with
      | Some t => fire_abort n t
      | None => never
      end in
    match transport w n with
    | Responds latency r =>
        if beats w1 latency t then settle n latency (Normal r) w1
        else aborted w1
    | Rejects latency message =>
        if beats w1 latency t then settle n latency (Throw (FetchError message)) w1
        else aborted w1
    | Hangs => aborted w1
    end.

(** ** The helpers *)

(** A parameter with a default value: [None] is an argument left out. *)
Definition default {A} (d : A) (a : option A) : A :=
  match a with
  | Some a => a
  | None => d
  end.

(** [fetchWithTimeout(url, options = {}, timeout = 10000)] *)
Definition fetchWithTimeout (url : string) (options : option object)
    (timeout : option Z) : M Response :=
  let options := default [] options in
  let timeout := default 10000 timeout in
  controller <- new_AbortController ;;
  timeoutId <- setTimeout (CbAbort controller) timeout ;;
  try_catch
    (response <- fetch url (obj_set "signal" (VSignal controller) options) ;;
     clearTimeout timeoutId ;;;
     ret response)
    (fun error =>
       clearTimeout timeoutId ;;;
       throw error).

(** How one turn of the loop body ends: with the function's [return], or by
    falling out of the [try] statement into the next turn. *)
Inductive flow : Type :=
| Return (response : Response)
| Next.

Definition http_error_message (st : Z) : string :=
  String.append "HTTP error! Status: " (string_of_Z st).

Definition retrying_message (i retries : Z) : string :=
  String.append "Retrying ("
    (String.append (string_of_Z (i + 1))
       (String.append "/" (String.append (string_of_Z retries) ")..."))).

(** The [for (let i = 0; i < retries; i++)] loop from index [i] on. The
    result [None] of the function is JavaScript's [undefined]. *)
Fixpoint retry_loop (fuel : nat) (url : string) (options : object)
    (retries : Z) (i : Z) : M (option Response) :=
  if i <? retries then
    match fuel with
    | O => never
    | S fuel' =>
        f <- try_catch
               (response <- fetchWithTimeout url (Some options) None ;;
                if negb (ok response)
                then throw (Error (http_error_message (status response)))
                else ret (Return response))
               (fun error =>
                  if i =? retries - 1 then throw error
                  else
                    console_log (retrying_message i retries) ;;;
                    sleep 2000 ;;;
                    ret Next) ;;
        match f with
        | Return response => ret (Some response)
        | Next => retry_loop fuel' url options retries (i + 1)
        end
    end
  else ret None.

(** [fetchWithRetry(url, options = {}, retries = 3)]. The retry count is an
    integer; the loop makes at most [retries] turns, which is the fuel. *)
Definition fetchWithRetry (url : string) (options : option object)
    (retries : option Z) : M (option Response) :=
  let options := default [] options in
  let retries := default 3 retries in
  retry_loop (Z.to_nat retries) url options retries 0.

(** ** One attempt in closed form *)

(** Does the network answer before a timer of [T] ms armed at the instant of
    the call? *)
Definition on_time (T : Z) (o : outcome) : bool :=
  match o with
  | Responds latency _ => latency <? T
  | Rejects latency _ => latency <? T
  | Hangs => false
  end.

(** The time one attempt takes under a timer of [T] ms. *)
Definition elapsed (T : Z) (o : outcome) : Z :=
  match o with
  | Responds latency _ => if latency <? T then latency else T
  | Rejects latency _ => if latency <? T then latency else T
  | Hangs => T
  end.

(** How the promise of [fetchWithTimeout] settles. *)
Definition attempt_completion (T : Z) (o : outcome) : completion Response :=
  match o with
  | Responds latency r => if latency <? T then Normal r else Throw AbortError
  | Rejects latency message =>
      if latency <? T then Throw (FetchError message) else Throw AbortError
  | Hangs => Throw AbortError
  end.

(** The events of one attempt whose controller is [c] and whose transport
    call is the [n]-th. *)
Definition attempt_events (url : string) (options : object) (timeout : Z)
    (c n : nat) (o : outcome) : list event :=
  [EvSetTimeout (S c) timeout (CbAbort c);
   EvFetch n url (obj_set "signal" (VSignal c) options)]
  ++ (if on_time (timer_delay timeout) o then [] else [EvAbort c])
  ++ [EvClearTimeout (S c)].

Definition attempt_world (url : string) (options : object) (timeout : Z)
    (w : World) : World :=
  let o := transport w (calls w) in
  mkWorld (clock w + elapsed (timer_delay timeout) o)
          (S (S (next_id w)))
          (drop_timer (S (next_id w)) (timers w))
          (match attempt_completion (timer_delay timeout) o with
           | Normal _ => calls w :: inflight w
           | Throw _ => drop_call (calls w) (inflight w)
           end)
          (S (calls w))
          (transport w)
          (trace w ++ attempt_events url options timeout (next_id w) (calls w) o).

(** The events a computation added to the trace. *)
Definition new_events (w w' : World) : list event :=
  skipn (List.length (trace w)) (trace w').

(** ** One turn of the retry loop in closed form *)

(** The three ways an attempt fails. *)
Inductive cause : Type :=
| TimeoutFailure
| TransportFailure
| StatusFailure.

(** The timer [fetchWithRetry] leaves to [fetchWithTimeout]'s default. *)
Definition attempt_timeout : Z := 10000.

(** Why an attempt of the retry loop fails; [None] when it succeeds. *)
Definition failure_cause (o : outcome) : option cause :=
  match o with
  | Responds latency r =>
      if latency <? attempt_timeout
      then if ok r then None else Some StatusFailure
      else Some TimeoutFailure
  | Rejects latency _ =>
      if latency <? attempt_timeout then Some TransportFailure
      else Some TimeoutFailure
  | Hangs => Some TimeoutFailure
  end.

Definition succeeds (o : outcome) : bool :=
  match failure_cause o with
  | None => true
  | Some _ => false
  end.

(** How the [try] block of one turn completes, before the [catch]. *)
Definition turn_completion (o : outcome) : completion (option Response) :=
  match attempt_completion attempt_timeout o with
  | Normal r =>
      if ok r then Normal (Some r)
      else Throw (Error (http_error_message (status r)))
  | Throw e => Throw e
  end.

(** The error the [catch] block receives from a failed attempt. *)
Definition attempt_error (o : outcome) : error :=
  match o with
  | Responds latency r =>
      if latency <? attempt_timeout
      then Error (http_error_message (status r))
      else AbortError
  | Rejects latency message =>
      if latency <? attempt_timeout then FetchError message else AbortError
  | Hangs => AbortError
  end.

Section Loop.

Variable url : string.
Variable options : object.
Variable retries : Z.

(** The world after the [catch] block logged and slept. *)
Definition backoff_world (i : Z) (w : World) : World :=
  mkWorld (clock w + 2000) (S (next_id w))
          (drop_timer (next_id w) (timers w))
          (inflight w) (calls w) (transport w)
          (trace w ++ [EvLog (retrying_message i retries);
                       EvSetTimeout (next_id w) 2000 CbResolve]).

(** The world after a failed turn that is not the last one. *)
Definition turn_world (i : Z) (w : World) : World :=
  backoff_world i (attempt_world url options attempt_timeout w).

Definition turn_events (i : Z) (w : World) : list event :=
  attempt_events url options attempt_timeout (next_id w) (calls w)
    (transport w (calls w))
  ++ [EvLog (retrying_message i retries);
      EvSetTimeout (S (S (next_id w))) 2000 CbResolve].

Fixpoint turns_world (m : nat) (i : Z) (w : World) : World :=
  match m with
  | O => w
  | S m' => turns_world m' (i + 1) (turn_world i w)
  end.

Fixpoint turns_events (m : nat) (i : Z) (w : World) : list event :=
  match m with
  | O => []
  | S m' => turn_events i w ++ turns_events m' (i + 1) (turn_world i w)
  end.

(** The world in which the call ends when its [m+1]-th turn decides. *)
Definition final_world (m : nat) (i : Z) (w : World) : World :=
  attempt_world url options attempt_timeout (turns_world m i w).

Definition final_events (m : nat) (i : Z) (w : World) : list event :=
  turns_events m i w
  ++ (let w' := turns_world m i w in
      attempt_events url options attempt_timeout (next_id w') (calls w')
        (transport w' (calls w'))).

(** The [try] block of one turn. *)
Definition try_block : M flow :=
  response <- fetchWithTimeout url (Some options) None ;;
  if negb (ok response)
  then throw (Error (http_error_message (status response)))
  else ret (Return response).

(** The [catch] block of turn [i]. *)
Definition catch_block (i : Z) (error : error) : M flow :=
  if i =? retries - 1 then throw error
  else
    console_log (retrying_message i retries) ;;;
    sleep 2000 ;;;
    ret Next.

Definition flow_completion (o : outcome) : completion flow :=
  match turn_completion o with
  | Normal (Some r) => Normal (Return r)
  | Normal None => Normal Next
  | Throw e => Throw e
  end.

End Loop.

(** ** Reading a trace *)

(** The steps of the retry loop that show in a trace: a transport call, a
    console notice, a backoff wait. *)
Inductive milestone : Type :=
| MAttempt
| MNotice (message : string)
| MBackoff (delay : Z).

Definition milestone_of (e : event) : list milestone :=
  match e with
  | EvFetch _ _ _ => [MAttempt]
  | EvLog message => [MNotice message]
  | EvSetTimeout _ delay CbResolve => [MBackoff delay]
  | _ => []
  end.

Definition milestones (evs : list event) : list milestone :=
  flat_map milestone_of evs.

Definition is_attempt (e : event) : bool :=
  match e with
  | EvFetch _ _ _ => true
  | _ => false
  end.

(** The number of transport calls in a stretch of trace. *)
Definition attempts (evs : list event) : nat :=
  List.length (filter is_attempt evs).

(** The console notices of a stretch of trace, in order. *)
Definition notice_of (s : milestone) : list string :=
  match s with
  | MNotice message => [message]
  | _ => []
  end.

Definition notices (evs : list event) : list string :=
  flat_map notice_of (milestones evs).

Definition not_notice (s : milestone) : bool :=
  match s with
  | MNotice _ => false
  | _ => true
  end.

Definition not_backoff (s : milestone) : bool :=
  match s with
  | MBackoff _ => false
  | _ => true
  end.

(** [m] failed turns from index [i] on: attempt, notice, wait. *)
Fixpoint rounds (retries : Z) (i : Z) (m : nat) : list milestone :=
  match m with
  | O => []
  | S m' =>
      [MAttempt; MNotice (retrying_message i retries); MBackoff 2000]
      ++ rounds retries (i + 1) m'
  end.

(** ** Concrete scenarios *)

(** A fresh world over a transport script. *)
Definition idle (tr : nat -> outcome) : World := mkWorld 0 0 [] [] 0 tr [].

(** The transport answers every call with status 500 after 120 ms. *)
Definition always_500 : nat -> outcome :=
  fun _ => Responds 120 (http_response 500 "").

(** The transport hangs twice, then answers with status 200. *)
Definition third_time_lucky : nat -> outcome :=
  fun n =>
    match n with
    | 0%nat | 1%nat => Hangs
    | _ => Responds 80 (http_response 200 "ok")
    end.

(** The transport answers 404 once, then 200. *)
Definition missing_then_found : nat -> outcome :=
  fun n =>
    match n with
    | 0%nat => Responds 35 (http_response 404 "")
    | _ => Responds 80 (http_response 200 "ok")
    end.

(** The transport hangs once, then answers with status 200. *)
Definition stalled_then_found : nat -> outcome :=
  fun n =>
    match n with
    | 0%nat => Hangs
    | _ => Responds 80 (http_response 200 "ok")
    end.

(** The transport answers with status 200 after 5 seconds. *)
Definition slow_200 : nat -> outcome :=
  fun _ => Responds 5000 (http_response 200 "late").

(** The options of the image proxy route. *)
Definition proxy_image_options : object :=
  [("headers"%string,
    VObject [("Referer"%string, VString "https://mangadex.org");
             ("User-Agent"%string, VString "Mozilla/5.0")])].

(** ** Vocabulary of the claims *)

(** The network has not answered when a timer of [T] ms fires. *)
Definition overdue (T : Z) (o : outcome) : Prop :=
  match o with
  | Responds latency _ => T <= latency
  | Rejects latency _ => T <= latency
  | Hangs => True
  end.

(** The time the next [k] transport calls of a script take from call
    [first] on, each under the 10000 ms timer of an attempt: the latency of
    an answer that comes in time, 10000 ms otherwise. *)
Fixpoint attempts_time (tr : nat -> outcome) (first : nat) (k : nat) : Z :=
  match k with
  | O => 0
  | S k' => elapsed attempt_timeout (tr first) + attempts_time tr (S first) k'
  end.

(** The attempt ends in the [catch] block: no answer within 10000 ms, an
    answer with a status that is not a success, or a transport error. *)
Definition attempt_fails (o : outcome) : Prop :=
  match o with
  | Responds latency r => attempt_timeout <= latency \/ ok r = false
  | Rejects _ _ => True
  | Hangs => True
  end.

(** Does a completion carry a thrown error? *)
Definition raises {A} (c : completion A) : bool :=
  match c with
  | Normal _ => false
  | Throw _ => true
  end.

(** How a caller sees the end of a call. *)
Inductive classification : Type :=
| Succeeded
| Failed
| Empty.

Definition classify (c : completion (option Response)) : classification :=
  match c with
  | Normal (Some _) => Succeeded
  | Normal None => Empty
  | Throw _ => Failed
  end.

(** The world a call leaves behind, with the part of the script it has not
    consumed replaced by a replay of what the call saw. *)
Definition replay (w w' : World) : World :=
  mkWorld (clock w') (next_id w') (timers w') (inflight w') (calls w')
          (fun n => transport w (calls w + (n - calls w'))%nat)
          (trace w').

(** What one event shows of the options handed to the transport: the
    caller's properties other than [signal] in their order with their
    values, and a [signal] of the attempt's controller, put last when the
    caller gave none. *)
Definition passes_options (url : string) (options : object) (e : event) : Prop :=
  match e with
  | EvFetch _ u o =>
      u = url /\
      obj_others "signal" o = obj_others "signal" options /\
      (forall k, k <> "signal"%string -> obj_get k o = obj_get k options) /\
      exists c,
        obj_get "signal" o = Some (VSignal c) /\
        (obj_get "signal" options = None ->
         o = options ++ [("signal"%string, VSignal c)])
  | _ => True
  end.

(** A call site written against the interface
    [(address, options, timeoutMs, maxRetries)]: JavaScript binds arguments
    by position, [fetchWithRetry] declares [(url, options, retries)], so the
    third argument is taken as the retry count and the fourth is dropped. *)
Definition fetchWithRetry_call4 (url : string) (options : option object)
    (arg3 arg4 : option Z) : M (option Response) :=
  fetchWithRetry url options arg3.

(** The abort timer an event arms, if it arms one, has the delay [T]. *)
Definition armed_for (T : Z) (e : event) : Prop :=
  match e with
  | EvSetTimeout _ delay (CbAbort _) => delay = T
  | _ => True
  end.

(** ** More ways to read a trace *)

(** The timers armed to abort a controller, in order. *)
Definition armed_ids (evs : list event) : list nat :=
  flat_map (fun e => match e with
                     | EvSetTimeout id _ (CbAbort _) => [id]
                     | _ => []
                     end) evs.

(** The timers cleared, in order. *)
Definition cleared_ids (evs : list event) : list nat :=
  flat_map (fun e => match e with
                     | EvClearTimeout id => [id]
                     | _ => []
                     end) evs.

(** The controllers whose signal the transport calls carry, in order. *)
Definition signals (evs : list event) : list nat :=
  flat_map (fun e => match e with
                     | EvFetch _ _ o =>
                         match obj_get "signal" o with
                         | Some (VSignal c) => [c]
                         | _ => []
                         end
                     | _ => []
                     end) evs.

(** The controllers aborted, in order. *)
Definition aborts (evs : list event) : list nat :=
  flat_map (fun e => match e with
                     | EvAbort c => [c]
                     | _ => []
                     end) evs.

(** The attempts among the next [k] transport calls of [w] that a timer of
    10000 ms cuts short. *)
Definition overdue_attempts (w : World) (k : nat) : list nat :=
  filter (fun j => negb (on_time attempt_timeout (transport w (calls w + j))))
    (seq 0 k).

(** No transport call of the script answers before it is issued. *)
Definition causal (w : World) : Prop :=
  forall n,
    match transport w n with
    | Responds latency _ => 0 <= latency
    | Rejects latency _ => 0 <= latency
    | Hangs => True
    end.

(** ** The image proxy route *)

(** The calls a route handler makes on the Express response object. *)
Inductive res_call : Type :=
| ResSet (field value : string)
| ResSend (body : string)
| ResStatus (code : Z)
| ResJson (body : object).

(** The options of the upstream request of [/proxy-image]. *)
Definition proxy_image_request : object :=
  [("headers"%string,
    VObject
      [("Referer"%string, VString "https://mangadex.org");
       ("User-Agent"%string,
        VString "Mozilla/5.0 (Windows NT 10.0; Win64; x64) AppleWebKit/537.36 (KHTML, like Gecko) Chrome/110.0.0.0 Safari/537.36")])].

Definition image_reply (image : string) : list res_call :=
  [ResSet "Content-Type" "image/jpeg"; ResSend image].

Definition image_error_reply : list res_call :=
  [ResStatus 500; ResJson [("error"%string, VString "Failed to load image")]].

Section ProxyImage.

(** [response.buffer()] of node-fetch: it reads the body to its end, which
    takes its time, may fail, and may never finish, the abort timer of the
    attempt being cleared by then. *)
Variable buffer : Response -> M string.

(** [sharp(b).resize({ width: 150 }).jpeg({ quality: 80 }).toBuffer()]. *)
Variable sharp_resize_jpeg : string -> M string.

(** The handler of [GET /proxy-image] for [req.query.url = imageUrl]; its
    value is what it does to [res]. Reading [ok] off [undefined] is a
    [TypeError]. *)
Definition proxy_image (imageUrl : string) : M (list res_call) :=
  try_catch
    (response <- fetchWithRetry imageUrl (Some proxy_image_request) None ;;
     match response with
     | None =>
         throw (Error "Cannot read properties of undefined (reading 'ok')")
     | Some response =>
         if negb (ok response) then throw (Error "Failed to fetch image")
         else
           imageBuffer <- buffer response ;;
           resizedImage <- sharp_resize_jpeg imageBuffer ;;
           ret (image_reply resizedImage)
     end)
    (fun error => ret image_error_reply).

End ProxyImage.

(** ** Shaping the manga lists *)

Infix "+++" := String.append (right associativity, at level 60).

(** The [createdAt] attribute of a manga as the API's JSON gives it. *)
Inductive created : Type :=
| CreatedAbsent                   (* no such property: [undefined] *)
| CreatedNull
| CreatedNumber (n : Z)
| CreatedString (s : string).

(** Is [manga.attributes.createdAt] truthy? *)
Definition created_truthy (c : created) : bool :=
  match c with
  | CreatedAbsent => false
  | CreatedNull => false
  | CreatedNumber n => negb (n =? 0)
  | CreatedString s => negb (String.eqb s "")
  end.

(** [1000 * 60 * 60 * 24] *)
Definition day_ms : Z := 1000 * 60 * 60 * 24.

(** [(now - createdAt) / (1000 * 60 * 60 * 24) < 30] for the time values of
    two dates, [None] being the time value [NaN] of an invalid date. The
    difference of two time values is an integer below 2^53 and the division
    by a day is rounded monotonically, with the quotient of 30 days exactly
    30, so the test is that of the difference against 30 days. *)
Definition within_30_days (now : Z) (createdAt : option Z) : bool :=
  match createdAt with
  | Some t => now - t <? 30 * day_ms
  | None => false
  end.

(** [let tag = ""; if (follows > 50000) tag = "ss";
     else if (follows > 10000) tag = "hot";] *)
Definition follows_tag (follows : Z) : string :=
  if 50000 <? follows then "ss"
  else if 10000 <? follows then "hot"
  else "".

Section Dates.

(** [Date.parse]: the time value of a date string, [None] for [NaN]. *)
Variable Date_parse : string -> option Z.

(** The time value of [new Date(createdAt)]. *)
Definition new_Date (c : created) : option Z :=
  match c with
  | CreatedAbsent => None
  | CreatedNull => Some 0
  | CreatedNumber n =>
      if Z.abs n <=? 8640000000000000 then Some n else None
  | CreatedString s => Date_parse s
  end.

(** The popularity tag of [/latest-manga], [/manga/:id] and the list routes:
    the date is looked at only when [createdAt] is truthy. *)
Definition popularity_tag (now : Z) (follows : Z) (c : created) : string :=
  let tag := follows_tag follows in
  if created_truthy c then
    if within_30_days now (new_Date c) then "new" else tag
  else tag.

(** The popularity tag of [/new-manga]: the date is looked at always. *)
Definition popularity_tag_new_manga (now : Z) (follows : Z) (c : created)
  : string :=
  let tag := follows_tag follows in
  if within_30_days now (new_Date c) then "new" else tag.

(** The choice of [/new-manga] among the manga of the feed. An object of
    the parsed JSON has an identity, which is what [includes] compares. *)
Variable Manga : Type.
Variable ref : Manga -> nat.
Variable createdAt : Manga -> created.

(** [list.includes(manga)] *)
Definition includes (l : list Manga) (manga : Manga) : bool :=
  existsb (fun x => Nat.eqb (ref x) (ref manga)) l.

(** The manga [/new-manga] answers with, before each is turned into its
    reply entry, which keeps number and order: those of the last 30 days,
    filled up to ten with the others, cut to ten. *)
Definition new_manga_selection (now : Z) (data : list Manga) : list Manga :=
  let newMangaList :=
    filter (fun manga => within_30_days now (new_Date (createdAt manga))) data in
  let newMangaList :=
    if (List.length newMangaList <? 10)%nat then
      let olderManga :=
        filter (fun manga => negb (includes newMangaList manga)) data in
      newMangaList ++ firstn (10 - List.length newMangaList) olderManga
    else newMangaList in
  firstn 10 newMangaList.

End Dates.

(** ** Building upstream queries *)

(** The characters [encodeURIComponent] leaves alone. *)
Definition unreserved (c : ascii) : bool :=
  let n := Ascii.nat_of_ascii c in
  ((48 <=? n) && (n <=? 57))%nat            (* 0-9 *)
  || ((65 <=? n) && (n <=? 90))%nat         (* A-Z *)
  || ((97 <=? n) && (n <=? 122))%nat        (* a-z *)
  || existsb (Ascii.eqb c)
       ["-"; "_"; "."; "!"; "~"; "*"; "'"; "("; ")"]%char.

Definition hex_digit (n : nat) : ascii :=
  match String.get n "0123456789ABCDEF" with
  | Some c => c
  | None => "0"%char
  end.

(** [encodeURIComponent] on a string held as its UTF-8 bytes: every byte
    that is not an unreserved character becomes [%XX]. *)
Fixpoint encodeURIComponent (s : string) : string :=
  match s with
  | EmptyString => EmptyString
  | String c s' =>
      if unreserved c then String c (encodeURIComponent s')
      else
        let n := Ascii.nat_of_ascii c in
        String "%" (String (hex_digit (n / 16))
                      (String (hex_digit (n mod 16)) (encodeURIComponent s')))
  end.

(** [s.padStart(2, '0')] *)
Definition padStart2 (s : string) : string :=
  match String.length s with
  | 0%nat => "00" +++ s
  | 1%nat => "0" +++ s
  | _ => s
  end.

(** What the getters of a [Date] give in local time; [getMonth] counts from
    0. *)
Record local_time : Type := mkLocalTime {
  getFullYear : Z;
  getMonth : Z;
  getDate : Z;
  getHours : Z;
  getMinutes : Z;
  getSeconds : Z
}.

(** [getEncodedCurrentDate()], given the date [now] has become after
    [now.setDate(now.getDate() - 7)]. *)
Definition getEncodedCurrentDate (now : local_time) : string :=
  let year := getFullYear now in
  let month := padStart2 (string_of_Z (getMonth now + 1)) in
  let day := padStart2 (string_of_Z (getDate now)) in
  let hours := padStart2 (string_of_Z (getHours now)) in
  let minutes := padStart2 (string_of_Z (getMinutes now)) in
  let seconds := padStart2 (string_of_Z (getSeconds now)) in
  let originalDate :=
    string_of_Z year +++ "-" +++ month +++ "-" +++ day +++ "T" +++
    hours +++ ":" +++ minutes +++ ":" +++ seconds in
  encodeURIComponent originalDate.

(** [s.split(",")] *)
Fixpoint split_comma (s : string) : list string :=
  match s with
  | EmptyString => [EmptyString]
  | String c s' =>
      if Ascii.eqb c ","%char then EmptyString :: split_comma s'
      else
        match split_comma s' with
        | piece :: pieces => String c piece :: pieces
        | [] => [String c EmptyString]
        end
  end.

(** [genres ? genres.split(",").map(genre => `includedTags[]=${genre}`)
      .join("&") : ""] of [/list-mangas] *)
Definition genreFilter (genres : string) : string :=
  if String.eqb genres "" then ""%string
  else
    String.concat "&"
      (map (fun genre => "includedTags[]=" +++ genre) (split_comma genres)).

(** Does a string contain a comma? *)
Fixpoint has_comma (s : string) : bool :=
  match s with
  | EmptyString => false
  | String c s' => Ascii.eqb c ","%char || has_comma s'
  end.

(** Every character of the string is unreserved. *)
Fixpoint all_unreserved (s : string) : bool :=
  match s with
  | EmptyString => true
  | String c s' => unreserved c && all_unreserved s'
  end.

(** ** The front-end scripts *)

(** The class list of a DOM element: its class names, each once, in
    order. *)
Definition classList : Type := list string.

(** [classList.contains(c)], jQuery's [hasClass] *)
Definition classList_contains (l : classList) (c : string) : bool :=
  existsb (String.eqb c) l.

(** [classList.add(c)], jQuery's [addClass]: a class already there stays
    where it is. *)
Definition classList_add (l : classList) (c : string) : classList :=
  if classList_contains l c then l else l ++ [c].

(** [classList.remove(c)], jQuery's [removeClass] *)
Definition classList_remove (l : classList) (c : string) : classList :=
  filter (fun x => negb (String.eqb x c)) l.

(** The click handler of an item of the genre filter, on the class list of
    the item clicked. *)
Definition genre_item_click (l : classList) : classList :=
  if classList_contains l "active" then
    classList_add (classList_remove l "active") "inactive"
  else if classList_contains l "inactive" then
    classList_remove l "inactive"
  else
    classList_add l "active".

(** The three states of a genre filter item, as the handler tells them
    apart: it looks for [active] first, then for [inactive]. *)
Inductive genre_state : Type :=
| GenreIncluded                   (* [active] *)
| GenreExcluded                   (* [inactive] *)
| GenreUnset.                     (* neither *)

Definition genre_item_state (l : classList) : genre_state :=
  if classList_contains l "active" then GenreIncluded
  else if classList_contains l "inactive" then GenreExcluded
  else GenreUnset.

(** The state a click leads to. *)
Definition genre_state_next (s : genre_state) : genre_state :=
  match s with
  | GenreUnset => GenreIncluded
  | GenreIncluded => GenreExcluded
  | GenreExcluded => GenreUnset
  end.

(** The elements the theme buttons touch. *)
Record theme_page : Type := mkThemePage {
  page_body : classList;
  light_button : classList;
  dark_button : classList
}.

Inductive theme_button : Type :=
| LightButton
| DarkButton.

(** The click handlers of [.light-btn] and [.dark-btn]. *)
Definition theme_click (p : theme_page) (b : theme_button) : theme_page :=
  match b with
  | LightButton =>
      mkThemePage (classList_add (page_body p) "dark-theme")
                  (classList_add (light_button p) "d-none")
                  (classList_remove (dark_button p) "d-none")
  | DarkButton =>
      mkThemePage (classList_remove (page_body p) "dark-theme")
                  (classList_remove (light_button p) "d-none")
                  (classList_add (dark_button p) "d-none")
  end.

(** The elements the filter button touches: the filter body, the icon of
    the button, the text of the button. *)
Record filter_panel : Type := mkFilterPanel {
  filter_body : classList;
  filter_icon : classList;
  filter_text : string
}.

(** The click handler of the filter button. *)
Definition filter_btn_click (p : filter_panel) : filter_panel :=
  if classList_contains (filter_body p) "d-none" then
    mkFilterPanel
      (classList_remove (filter_body p) "d-none")
      (classList_add (classList_remove (filter_icon p) "fa-plus") "fa-minus")
      "Hide"
  else
    mkFilterPanel
      (classList_add (filter_body p) "d-none")
      (classList_remove (classList_add (filter_icon p) "fa-plus") "fa-minus")
      "Show".

(** ** Facts about the primitives and the helpers *)

Lemma obj_get_set k v o : obj_get k (obj_set k v o) = Some v.
Proof.
  induction o as [|[k' v'] o IH]; simpl.
  - now rewrite String.eqb_refl.
  - destruct (String.eqb k' k) eqn:E; simpl; now rewrite E.
Qed.

Lemma obj_others_set k v o :
  obj_others k (obj_set k v o) = obj_others k o.
Proof.
  unfold obj_others.
  induction o as [|[k' v'] o IH]; simpl.
  - now rewrite String.eqb_refl.
  - destruct (String.eqb k' k) eqn:E; simpl; rewrite E; simpl; congruence.
Qed.

Lemma obj_get_set_other k k' v o :
  k' <> k -> obj_get k' (obj_set k v o) = obj_get k' o.
Proof.
  intros Hk.
  induction o as [|[k1 v1] o IH]; simpl.
  - destruct (String.eqb_spec k k'); congruence.
  - destruct (String.eqb_spec k1 k) as [-> | Hn]; simpl.
    + destruct (String.eqb_spec k k'); congruence.
    + destruct (String.eqb_spec k1 k'); congruence.
Qed.

Lemma drop_timer_idem id ts : drop_timer id (drop_timer id ts) = drop_timer id ts.
Proof.
  unfold drop_timer. induction ts as [|t ts IH]; simpl; [reflexivity|].
  destruct (Nat.eqb (timer_id t) id) eqn:E; simpl; [|rewrite E; simpl]; congruence.
Qed.

Lemma drop_call_absent n cs : ~ In n (drop_call n cs).
Proof.
  unfold drop_call. rewrite filter_In. intros [_ H].
  now rewrite Nat.eqb_refl in H.
Qed.

Lemma new_events_app w w' evs :
  trace w' = trace w ++ evs -> new_events w w' = evs.
Proof.
  intros H. unfold new_events. rewrite H.
  rewrite skipn_app, skipn_all, Nat.sub_diag. reflexivity.
Qed.

(** [fetchWithTimeout] always completes, and in closed form. *)
Lemma fetchWithTimeout_run url options timeout w :
  fetchWithTimeout url options timeout w =
  Some (attempt_completion (timer_delay (default 10000 timeout))
          (transport w (calls w)),
        attempt_world url (default [] options) (default 10000 timeout) w).
Proof.
  unfold fetchWithTimeout, attempt_world, attempt_events.
  generalize (default [] options) as opts, (default 10000 timeout) as T.
  intros opts T.
  unfold bind, try_catch, new_AbortController, setTimeout, fetch. simpl.
  unfold abort_timer. rewrite obj_get_set. simpl. rewrite Nat.eqb_refl.
  unfold beats, on_time, elapsed, attempt_completion. simpl.
  destruct (transport w (calls w)) as [lat r|lat msg|]; simpl.
  - replace (clock w + lat <? clock w + timer_delay T) with (lat <? timer_delay T)
      by (destruct (Z.ltb_spec lat (timer_delay T));
          destruct (Z.ltb_spec (clock w + lat) (clock w + timer_delay T)); lia).
    destruct (lat <? timer_delay T); simpl;
      rewrite ?Nat.eqb_refl; simpl; rewrite ?drop_timer_idem, <- ?app_assoc;
      reflexivity.
  - replace (clock w + lat <? clock w + timer_delay T) with (lat <? timer_delay T)
      by (destruct (Z.ltb_spec lat (timer_delay T));
          destruct (Z.ltb_spec (clock w + lat) (clock w + timer_delay T)); lia).
    destruct (lat <? timer_delay T); simpl;
      rewrite ?Nat.eqb_refl; simpl; rewrite ?drop_timer_idem, <- ?app_assoc;
      reflexivity.
  - rewrite ?Nat.eqb_refl; simpl; rewrite ?drop_timer_idem, <- ?app_assoc.
    reflexivity.
Qed.

Lemma succeeds_completion o :
  succeeds o = true ->
  exists latency r,
    o = Responds latency r /\ latency < attempt_timeout /\ ok r = true /\
    turn_completion o = Normal (Some r).
Proof.
  unfold succeeds, failure_cause, turn_completion, attempt_completion.
  destruct o as [lat r|lat msg|]; try discriminate.
  - destruct (Z.ltb_spec lat attempt_timeout); [|discriminate].
    destruct (ok r) eqn:E; [|discriminate].
    intros _. exists lat, r. now rewrite E.
  - destruct (lat <? attempt_timeout); discriminate.
Qed.

Lemma fails_completion o :
  succeeds o = false -> turn_completion o = Throw (attempt_error o).
Proof.
  unfold attempt_error, succeeds, failure_cause, turn_completion,
    attempt_completion.
  destruct o as [lat r|lat msg|]; try reflexivity.
  - destruct (lat <? attempt_timeout); [|reflexivity].
    destruct (ok r); [discriminate|reflexivity].
  - destruct (lat <? attempt_timeout); reflexivity.
Qed.

Lemma turns_world_transport (url : string) (options : object) (retries : Z) m : forall i w,
  transport (turns_world url options retries m i w) = transport w.
Proof. induction m as [|m IH]; intros i w; simpl; [|rewrite IH]; reflexivity. Qed.

Lemma turns_world_calls (url : string) (options : object) (retries : Z) m : forall i w,
  calls (turns_world url options retries m i w) = (calls w + m)%nat.
Proof.
  induction m as [|m IH]; intros i w; simpl; [|rewrite IH; simpl]; lia.
Qed.

Lemma turn_world_trace (url : string) (options : object) (retries : Z) i w :
  trace (turn_world url options retries i w) = trace w ++ turn_events url options retries i w.
Proof.
  unfold turn_world, turn_events, backoff_world, attempt_world.
  cbn [trace next_id]. now rewrite <- app_assoc.
Qed.

Lemma turns_world_trace (url : string) (options : object) (retries : Z) m : forall i w,
  trace (turns_world url options retries m i w) = trace w ++ turns_events url options retries m i w.
Proof.
  induction m as [|m IH]; intros i w; cbn [turns_world turns_events].
  - now rewrite app_nil_r.
  - now rewrite IH, turn_world_trace, <- app_assoc.
Qed.

Lemma final_world_trace (url : string) (options : object) (retries : Z) m i w :
  trace (final_world url options retries m i w) = trace w ++ final_events url options retries m i w.
Proof.
  unfold final_world, final_events. simpl.
  rewrite turns_world_trace. now rewrite <- app_assoc.
Qed.

Lemma final_world_calls (url : string) (options : object) (retries : Z) m i w :
  calls (final_world url options retries m i w) = (calls w + S m)%nat.
Proof. unfold final_world. simpl. rewrite turns_world_calls. lia. Qed.

Lemma final_world_transport (url : string) (options : object) (retries : Z) m i w :
  transport (final_world url options retries m i w) = transport w.
Proof. unfold final_world. simpl. apply turns_world_transport. Qed.

Lemma retry_loop_unfold (url : string) (options : object) (retries : Z) fuel i :
  retry_loop (S fuel) url options retries i =
  if i <? retries then
    f <- try_catch (try_block url options) (catch_block retries i) ;;
    match f with
    | Return response => ret (Some response)
    | Next => retry_loop fuel url options retries (i + 1)
    end
  else ret None.
Proof. reflexivity. Qed.

Lemma try_block_run (url : string) (options : object) w :
  try_block url options w =
  Some (flow_completion (transport w (calls w)),
        attempt_world url options attempt_timeout w).
Proof.
  unfold try_block, bind. rewrite fetchWithTimeout_run.
  unfold flow_completion, turn_completion. cbn [default].
  change (timer_delay 10000) with attempt_timeout.
  destruct (attempt_completion attempt_timeout (transport w (calls w)))
    as [r|e]; [|reflexivity].
  destruct (ok r); reflexivity.
Qed.

Lemma backoff_run (retries : Z) i w :
  (console_log (retrying_message i retries) ;;; sleep 2000 ;;; ret Next) w =
  Some (Normal Next, backoff_world retries i w).
Proof.
  unfold bind, console_log, sleep, bind, setTimeout, ret, emit, backoff_world.
  cbn [next_id clock timers inflight calls transport trace drop_timer filter
       timer_id].
  rewrite Nat.eqb_refl. cbn [negb]. rewrite <- app_assoc. reflexivity.
Qed.

(** A turn whose attempt succeeds returns the response. *)
Lemma retry_loop_success (url : string) (options : object) (retries : Z) fuel i w :
  i < retries ->
  succeeds (transport w (calls w)) = true ->
  retry_loop (S fuel) url options retries i w =
  Some (turn_completion (transport w (calls w)),
        attempt_world url options attempt_timeout w).
Proof.
  intros Hi Hs.
  destruct (succeeds_completion _ Hs) as (lat & r & _ & _ & _ & Hc).
  rewrite retry_loop_unfold.
  destruct (Z.ltb_spec i retries); [|lia].
  unfold bind, try_catch. rewrite try_block_run.
  unfold flow_completion. rewrite Hc. reflexivity.
Qed.

(** The last turn rethrows the error of its failed attempt. *)
Lemma retry_loop_last (url : string) (options : object) (retries : Z) fuel i w :
  i = retries - 1 ->
  succeeds (transport w (calls w)) = false ->
  retry_loop (S fuel) url options retries i w =
  Some (turn_completion (transport w (calls w)),
        attempt_world url options attempt_timeout w).
Proof.
  intros Hi Hs. rewrite retry_loop_unfold.
  destruct (Z.ltb_spec i retries); [|lia].
  unfold bind, try_catch. rewrite try_block_run.
  unfold flow_completion. rewrite (fails_completion _ Hs).
  unfold catch_block. destruct (Z.eqb_spec i (retries - 1)); [|lia].
  reflexivity.
Qed.

(** Any earlier turn whose attempt fails logs, waits, and goes on. *)
Lemma retry_loop_next (url : string) (options : object) (retries : Z) fuel i w :
  i < retries - 1 ->
  succeeds (transport w (calls w)) = false ->
  retry_loop (S fuel) url options retries i w =
  retry_loop fuel url options retries (i + 1) (turn_world url options retries i w).
Proof.
  intros Hi Hs. rewrite retry_loop_unfold.
  destruct (Z.ltb_spec i retries); [|lia].
  unfold bind at 1. unfold try_catch. rewrite try_block_run.
  unfold flow_completion. rewrite (fails_completion _ Hs).
  unfold catch_block. destruct (Z.eqb_spec i (retries - 1)); [lia|].
  rewrite backoff_run. reflexivity.
Qed.

(** The loop, when its first [m] attempts fail and the next one decides:
    it succeeds, or it is the attempt of the last turn. *)
Lemma retry_loop_decided (url : string) (options : object) (retries : Z) m : forall fuel i w,
  i + Z.of_nat m < retries ->
  (forall j, (j < m)%nat -> succeeds (transport w (calls w + j)) = false) ->
  succeeds (transport w (calls w + m)) = true \/
    i + Z.of_nat m = retries - 1 ->
  retry_loop (m + S fuel) url options retries i w =
  Some (turn_completion (transport w (calls w + m)), final_world url options retries m i w).
Proof.
  induction m as [|m IH]; intros fuel i w Hi Hfail Hlast.
  - unfold final_world. cbn [turns_world Nat.add].
    rewrite Nat.add_0_r in *.
    destruct (succeeds (transport w (calls w))) eqn:Hs.
    + apply retry_loop_success; [lia|assumption].
    + apply retry_loop_last; [|assumption].
      destruct Hlast as [?|?]; [discriminate|lia].
  - cbn [Nat.add]. rewrite retry_loop_next.
    + rewrite IH.
      * unfold final_world. cbn [turns_world].
        unfold turn_world at 1, backoff_world at 1. cbn [calls transport].
        unfold attempt_world at 1 2. cbn [calls transport].
        now rewrite Nat.add_succ_r.
      * lia.
      * intros j Hj. unfold turn_world, backoff_world, attempt_world.
        cbn [calls transport].
        replace (S (calls w) + j)%nat with (calls w + S j)%nat by lia.
        apply Hfail. lia.
      * unfold turn_world, backoff_world, attempt_world.
        cbn [calls transport].
        replace (S (calls w) + m)%nat with (calls w + S m)%nat by lia.
        destruct Hlast as [?|?]; [now left|right; lia].
    + lia.
    + specialize (Hfail 0%nat). rewrite Nat.add_0_r in Hfail.
      apply Hfail. lia.
Qed.

Lemma deciding_attempt (tr : nat -> outcome) (c0 n : nat) :
  (1 <= n)%nat ->
  exists m, (m < n)%nat /\
    (forall j, (j < m)%nat -> succeeds (tr (c0 + j)%nat) = false) /\
    (succeeds (tr (c0 + m)%nat) = true \/ m = (n - 1)%nat).
Proof.
  induction n as [|n IH]; [lia|]. intros _.
  destruct n as [|n].
  - exists 0%nat. repeat split; [lia|intros; lia|now right].
  - destruct IH as (m & Hm & Hfail & Hdec); [lia|].
    destruct (succeeds (tr (c0 + m)%nat)) eqn:Hs.
    + exists m. repeat split; [lia|assumption|now left].
    + destruct Hdec as [? | ->]; [discriminate|].
      exists (S n). repeat split; [lia| |right; lia].
      intros j Hj. destruct (Nat.eq_dec j (S n - 1)) as [-> | Hne];
        [assumption|apply Hfail; lia].
Qed.

(** A call with a retry count below 1 makes no turn. *)
Lemma fetchWithRetry_no_turn url options retries w :
  default 3 retries <= 0 ->
  fetchWithRetry url options retries w = Some (Normal None, w).
Proof.
  intros Hn. unfold fetchWithRetry.
  destruct (Z.to_nat (default 3 retries)); cbn [retry_loop];
    (destruct (Z.ltb_spec 0 (default 3 retries)); [lia|reflexivity]).
Qed.

(** A call whose [m+1]-th attempt decides. *)
Lemma fetchWithRetry_decided url options retries w m :
  Z.of_nat m < default 3 retries ->
  (forall j, (j < m)%nat -> succeeds (transport w (calls w + j)) = false) ->
  succeeds (transport w (calls w + m)) = true \/
    Z.of_nat m = default 3 retries - 1 ->
  fetchWithRetry url options retries w =
  Some (turn_completion (transport w (calls w + m)),
        final_world url (default [] options) (default 3 retries) m 0 w).
Proof.
  intros Hm Hfail Hdec. unfold fetchWithRetry.
  set (n := default 3 retries) in *.
  replace (Z.to_nat n) with (m + S (Z.to_nat n - S m))%nat by lia.
  apply retry_loop_decided; [lia|assumption|].
  destruct Hdec as [?|?]; [now left|right; lia].
Qed.

(** Some attempt decides every call with a retry count of at least 1. *)
Lemma fetchWithRetry_run url options retries w :
  1 <= default 3 retries ->
  exists m,
    Z.of_nat m < default 3 retries /\
    (forall j, (j < m)%nat -> succeeds (transport w (calls w + j)) = false) /\
    (succeeds (transport w (calls w + m)) = true \/
       Z.of_nat m = default 3 retries - 1) /\
    fetchWithRetry url options retries w =
    Some (turn_completion (transport w (calls w + m)),
          final_world url (default [] options) (default 3 retries) m 0 w).
Proof.
  intros Hn.
  destruct (deciding_attempt (transport w) (calls w)
              (Z.to_nat (default 3 retries))) as (m & Hm & Hfail & Hdec);
    [lia|].
  assert (Hdec' : succeeds (transport w (calls w + m)) = true \/
                  Z.of_nat m = default 3 retries - 1)
    by (destruct Hdec as [?|?]; [now left|right; lia]).
  exists m. repeat split; [lia|assumption|assumption|].
  apply fetchWithRetry_decided; [lia|assumption|assumption].
Qed.

Lemma milestones_app evs evs' :
  milestones (evs ++ evs') = milestones evs ++ milestones evs'.
Proof. apply flat_map_app. Qed.

Lemma milestones_attempt url options timeout c n o :
  milestones (attempt_events url options timeout c n o) = [MAttempt].
Proof.
  unfold attempt_events. destruct (on_time (timer_delay timeout) o); reflexivity.
Qed.

Lemma milestones_turns url options retries m : forall i w,
  milestones (turns_events url options retries m i w) = rounds retries i m.
Proof.
  induction m as [|m IH]; intros i w; cbn [turns_events rounds];
    [reflexivity|].
  unfold turn_events. rewrite !milestones_app, milestones_attempt, IH.
  reflexivity.
Qed.

Lemma milestones_final url options retries m i w :
  milestones (final_events url options retries m i w) =
  rounds retries i m ++ [MAttempt].
Proof.
  unfold final_events.
  now rewrite milestones_app, milestones_turns, milestones_attempt.
Qed.

Lemma attempts_app evs evs' :
  attempts (evs ++ evs') = (attempts evs + attempts evs')%nat.
Proof. unfold attempts. now rewrite filter_app, length_app. Qed.

Lemma attempts_attempt url options timeout c n o :
  attempts (attempt_events url options timeout c n o) = 1%nat.
Proof.
  unfold attempt_events. destruct (on_time (timer_delay timeout) o); reflexivity.
Qed.

Lemma attempts_turns url options retries m : forall i w,
  attempts (turns_events url options retries m i w) = m.
Proof.
  induction m as [|m IH]; intros i w; cbn [turns_events]; [reflexivity|].
  unfold turn_events. rewrite !attempts_app, attempts_attempt, IH.
  reflexivity.
Qed.

Lemma attempts_final url options retries m i w :
  attempts (final_events url options retries m i w) = S m.
Proof.
  unfold final_events.
  rewrite attempts_app, attempts_turns, attempts_attempt. lia.
Qed.

(** A property of single events holds of all the events of a call when it
    holds of those of an attempt and of those of a backoff. *)
Lemma final_events_Forall (P : event -> Prop) url options retries :
  (forall c n o, Forall P (attempt_events url options attempt_timeout c n o)) ->
  (forall i, P (EvLog (retrying_message i retries))) ->
  (forall id, P (EvSetTimeout id 2000 CbResolve)) ->
  forall m i w, Forall P (final_events url options retries m i w).
Proof.
  intros Hatt Hlog Hsleep m i w. unfold final_events.
  apply Forall_app. split; [|apply Hatt].
  revert i w. induction m as [|m IH]; intros i w; cbn [turns_events];
    [constructor|].
  apply Forall_app. split; [|apply IH].
  unfold turn_events. apply Forall_app. split; [apply Hatt|].
  repeat constructor; [apply Hlog|apply Hsleep].
Qed.

Lemma new_events_final url options retries m i w :
  new_events w (final_world url options retries m i w) =
  final_events url options retries m i w.
Proof. apply new_events_app, final_world_trace. Qed.

Lemma new_events_same w : new_events w w = [].
Proof. apply new_events_app. now rewrite app_nil_r. Qed.

Lemma succeeds_responds latency r :
  latency < attempt_timeout -> ok r = true ->
  succeeds (Responds latency r) = true /\
  turn_completion (Responds latency r) = Normal (Some r).
Proof.
  intros Hl Hok.
  unfold succeeds, failure_cause, turn_completion, attempt_completion.
  destruct (Z.ltb_spec latency attempt_timeout); [|lia].
  now rewrite Hok.
Qed.

(** A call whose [m+1]-th attempt is the first to succeed. *)
Lemma fetchWithRetry_success_run url options retries w m latency r :
  Z.of_nat m < default 3 retries ->
  (forall j, (j < m)%nat -> succeeds (transport w (calls w + j)) = false) ->
  transport w (calls w + m) = Responds latency r ->
  latency < attempt_timeout ->
  ok r = true ->
  fetchWithRetry url options retries w =
  Some (Normal (Some r),
        final_world url (default [] options) (default 3 retries) m 0 w).
Proof.
  intros Hm Hfail Ho Hl Hok.
  destruct (succeeds_responds latency r Hl Hok) as [Hs Hc].
  rewrite (fetchWithRetry_decided url options retries w m Hm Hfail);
    rewrite Ho; [now rewrite Hc|now left].
Qed.

(** A call all of whose [m+1] turns fail. *)
Lemma fetchWithRetry_failure_run url options retries w m :
  Z.of_nat m = default 3 retries - 1 ->
  (forall j, (j < S m)%nat -> succeeds (transport w (calls w + j)) = false) ->
  fetchWithRetry url options retries w =
  Some (Throw (attempt_error (transport w (calls w + m))),
        final_world url (default [] options) (default 3 retries) m 0 w).
Proof.
  intros Hm Hfail.
  rewrite (fetchWithRetry_decided url options retries w m);
    [|lia|intros j Hj; apply Hfail; lia|now right].
  rewrite fails_completion; [reflexivity|apply Hfail; lia].
Qed.

Lemma rounds_waits retries m : forall i,
  filter not_notice (rounds retries i m ++ [MAttempt]) =
  MAttempt :: List.concat (repeat [MBackoff 2000; MAttempt] m).
Proof.
  induction m as [|m IH]; intros i; [reflexivity|].
  cbn [rounds repeat List.concat app filter not_notice]. now rewrite IH.
Qed.

Lemma rounds_notices retries m : forall a,
  filter not_backoff (rounds retries (Z.of_nat a) m) =
  flat_map (fun j => [MAttempt; MNotice (retrying_message (Z.of_nat j) retries)])
    (seq a m).
Proof.
  induction m as [|m IH]; intros a; [reflexivity|].
  cbn [rounds seq flat_map app filter not_backoff].
  replace (Z.of_nat a + 1) with (Z.of_nat (S a)) by lia.
  now rewrite IH.
Qed.

Lemma rounds_notice_list retries m : forall a,
  flat_map notice_of (rounds retries (Z.of_nat a) m) =
  map (fun j => retrying_message (Z.of_nat j) retries) (seq a m).
Proof.
  induction m as [|m IH]; intros a; [reflexivity|].
  cbn [rounds seq map flat_map app notice_of].
  replace (Z.of_nat a + 1) with (Z.of_nat (S a)) by lia.
  now rewrite IH.
Qed.

Lemma succeeds_iff o : succeeds o = true <-> failure_cause o = None.
Proof.
  unfold succeeds. destruct (failure_cause o); split; congruence.
Qed.

Lemma obj_set_fresh k v o :
  obj_get k o = None -> obj_set k v o = o ++ [(k, v)].
Proof.
  induction o as [|[k' v'] o IH]; simpl; [reflexivity|].
  destruct (String.eqb k' k); [discriminate|]. intros H. now rewrite IH.
Qed.

Lemma attempts_time_S tr first k :
  attempts_time tr first (S k) =
  attempts_time tr first k + elapsed attempt_timeout (tr (first + k)%nat).
Proof.
  revert first. induction k as [|k IH]; intros first.
  - cbn [attempts_time]. rewrite Nat.add_0_r. lia.
  - change (attempts_time tr first (S (S k)))
      with (elapsed attempt_timeout (tr first)
            + attempts_time tr (S first) (S k)).
    rewrite IH. cbn [attempts_time].
    replace (S first + k)%nat with (first + S k)%nat by lia. lia.
Qed.

Lemma turn_world_clock url options retries i w :
  clock (turn_world url options retries i w) =
  clock w + elapsed attempt_timeout (transport w (calls w)) + 2000.
Proof. reflexivity. Qed.

(** The clock after [m] failed turns: the time of the attempts and a wait
    of 2000 ms after each. *)
Lemma turns_world_clock url options retries m : forall i w,
  clock (turns_world url options retries m i w) =
  clock w + attempts_time (transport w) (calls w) m + 2000 * Z.of_nat m.
Proof.
  induction m as [|m IH]; intros i w; cbn [turns_world attempts_time]; [lia|].
  rewrite IH, turn_world_clock.
  unfold turn_world, backoff_world, attempt_world. cbn [calls transport]. lia.
Qed.

Lemma final_world_clock url options retries m i w :
  clock (final_world url options retries m i w) =
  clock w + attempts_time (transport w) (calls w) (S m) + 2000 * Z.of_nat m.
Proof.
  unfold final_world, attempt_world. cbn [clock].
  change (timer_delay attempt_timeout) with attempt_timeout.
  rewrite turns_world_clock, turns_world_calls, turns_world_transport,
    attempts_time_S.
  lia.
Qed.

Lemma attempt_fails_succeeds o : attempt_fails o <-> succeeds o = false.
Proof.
  unfold attempt_fails, succeeds, failure_cause.
  destruct o as [lat r|lat msg|].
  - destruct (Z.ltb_spec lat attempt_timeout) as [Hlat|Hlat];
      destruct (ok r); split; intros Hf;
      try reflexivity; try discriminate Hf;
      try (destruct Hf as [Hf|Hf]; [lia|discriminate Hf]);
      try (now right); try (left; lia).
  - destruct (lat <? attempt_timeout); split; intros; try reflexivity; exact I.
  - split; intros; [reflexivity|exact I].
Qed.

(** The first [m] rounds of a longer run. *)
Lemma rounds_firstn retries m : forall m' i rest,
  (m <= m')%nat ->
  firstn (3 * m) (rounds retries i m' ++ rest) = rounds retries i m.
Proof.
  induction m as [|m IH]; intros m' i rest Hle; [reflexivity|].
  destruct m' as [|m']; [lia|].
  replace (3 * S m)%nat with (S (S (S (3 * m)))) by lia.
  cbn [rounds app firstn]. rewrite IH by lia. reflexivity.
Qed.

(** Every call completes. *)
Lemma fetchWithRetry_completes url options retries w :
  exists c w', fetchWithRetry url options retries w = Some (c, w').
Proof.
  destruct (Z.le_gt_cases (default 3 retries) 0) as [Hn|Hn].
  - exists (Normal None), w. now apply fetchWithRetry_no_turn.
  - destruct (fetchWithRetry_run url options retries w) as
      (m & _ & _ & _ & Hrun); [lia|].
    eexists _, _. exact Hrun.
Qed.

(** The image proxy asks once when the first answer is good, and the
    transport sees the route's headers followed by the signal. *)
Example proxy_image_first_try :
  option_map (fun cw => (fst cw, trace (snd cw)))
    (fetchWithRetry "https://uploads.mangadex.org/covers/a.jpg"
       (Some proxy_image_options) None (idle slow_200)) =
  Some (Normal (Some (http_response 200 "late")),
        [EvSetTimeout 1 10000 (CbAbort 0);
         EvFetch 0 "https://uploads.mangadex.org/covers/a.jpg"
           (proxy_image_options ++ [("signal"%string, VSignal 0%nat)]);
         EvClearTimeout 1]).
Proof. reflexivity. Qed.

(** A 500 on every attempt: three attempts, two notices, two waits, and the
    error of the third attempt. *)
Example always_500_run :
  option_map (fun cw => (fst cw, milestones (trace (snd cw)), clock (snd cw)))
    (fetchWithRetry "https://api.mangadex.org/manga/tag" None None
       (idle always_500)) =
  Some (Throw (Error "HTTP error! Status: 500"),
        [MAttempt; MNotice "Retrying (1/3)..."; MBackoff 2000;
         MAttempt; MNotice "Retrying (2/3)..."; MBackoff 2000;
         MAttempt],
        4360).
Proof. reflexivity. Qed.

(** ** The claims *)

(** C1. When every one of the [n] attempts of a call with retry count
    [n >= 1] fails (by timeout, transport error or non-success status), the
    call makes exactly [n] transport attempts and then throws the error of
    the last attempt to the caller. *)
Theorem fetchWithRetry_exhausted url options retries w n :
  default 3 retries = Z.of_nat n ->
  (1 <= n)%nat ->
  (forall j, (j < n)%nat -> succeeds (transport w (calls w + j)) = false) ->
  exists w',
    fetchWithRetry url options retries w =
      Some (Throw (attempt_error (transport w (calls w + (n - 1)))), w') /\
    attempts (new_events w w') = n /\
    calls w' = (calls w + n)%nat.
Proof.
  intros Hn H1 Hfail. destruct n as [|m]; [lia|].
  replace (S m - 1)%nat with m by lia.
  exists (final_world url (default [] options) (default 3 retries) m 0 w).
  split; [|split].
  - apply fetchWithRetry_failure_run; [lia|assumption].
  - rewrite new_events_final. apply attempts_final.
  - apply final_world_calls.
Qed.

Lemma fetchWithRetry_exhausted_witness :
  exists w',
    fetchWithRetry "https://x/y" None None (idle always_500) =
      Some (Throw (Error "HTTP error! Status: 500"), w') /\
    attempts (new_events (idle always_500) w') = 3%nat /\
    calls w' = 3%nat.
Proof.
  apply (fetchWithRetry_exhausted "https://x/y" None None (idle always_500) 3).
  - reflexivity.
  - lia.
  - intros j _. reflexivity.
Defined.

(** C3. When the attempts 1 to k-1 fail and attempt k (k at most the retry
    count) gets a success response in time, the call makes exactly k
    attempts, waits a backoff of 2000 ms between every two consecutive
    attempts, and returns the response of attempt k: between two attempts
    the trace shows one wait of 2000 ms, and the call ends at the time of
    its k attempts plus 2000 ms for each of the k-1 waits. *)
Theorem fetchWithRetry_succeeds_at url options retries w k latency r :
  (1 <= k)%nat ->
  Z.of_nat k <= default 3 retries ->
  (forall j, (j < k - 1)%nat -> succeeds (transport w (calls w + j)) = false) ->
  transport w (calls w + (k - 1)) = Responds latency r ->
  latency < attempt_timeout ->
  ok r = true ->
  exists w',
    fetchWithRetry url options retries w = Some (Normal (Some r), w') /\
    attempts (new_events w w') = k /\
    filter not_notice (milestones (new_events w w')) =
      MAttempt :: List.concat (repeat [MBackoff 2000; MAttempt] (k - 1)) /\
    clock w' =
      clock w + attempts_time (transport w) (calls w) k
      + 2000 * (Z.of_nat k - 1).
Proof.
  intros H1 Hk Hfail Ho Hl Hok. destruct k as [|m]; [lia|].
  replace (S m - 1)%nat with m in * by lia.
  exists (final_world url (default [] options) (default 3 retries) m 0 w).
  split; [|split; [|split]].
  - apply (fetchWithRetry_success_run url options retries w m latency r);
      [lia|assumption..].
  - rewrite new_events_final. apply attempts_final.
  - rewrite new_events_final, milestones_final. apply rounds_waits.
  - rewrite final_world_clock. lia.
Qed.

Lemma fetchWithRetry_succeeds_at_witness :
  exists w',
    fetchWithRetry "https://x/y" (Some []) (Some 3) (idle third_time_lucky) =
      Some (Normal (Some (http_response 200 "ok")), w') /\
    attempts (new_events (idle third_time_lucky) w') = 3%nat /\
    filter not_notice (milestones (new_events (idle third_time_lucky) w')) =
      [MAttempt; MBackoff 2000; MAttempt; MBackoff 2000; MAttempt] /\
    clock w' = 10000 + 2000 + 10000 + 2000 + 80.
Proof.
  apply (fetchWithRetry_succeeds_at "https://x/y" (Some []) (Some 3)
           (idle third_time_lucky) 3 80 (http_response 200 "ok")).
  - lia.
  - simpl. lia.
  - intros j Hj. simpl in Hj.
    destruct j as [|[|j]]; [reflexivity|reflexivity|lia].
  - reflexivity.
  - reflexivity.
  - reflexivity.
Defined.

(** C4. When attempt [m+1] is the first to get a success response in time,
    the call returns that very response at once: [m+1] transport calls have
    been issued when it returns, whatever the retry count allows, and the
    events of the successful attempt end the trace. With [m = 0]: a success
    on the first attempt gives exactly one attempt and the response
    unchanged. *)
Theorem fetchWithRetry_returns_at_once url options retries w m latency r :
  Z.of_nat (S m) <= default 3 retries ->
  (forall j, (j < m)%nat -> succeeds (transport w (calls w + j)) = false) ->
  transport w (calls w + m) = Responds latency r ->
  latency < attempt_timeout ->
  ok r = true ->
  exists w' earlier c,
    fetchWithRetry url options retries w = Some (Normal (Some r), w') /\
    attempts (new_events w w') = S m /\
    calls w' = (calls w + S m)%nat /\
    attempts earlier = m /\
    new_events w w' =
      earlier ++ attempt_events url (default [] options) attempt_timeout
                   c (calls w + m) (Responds latency r).
Proof.
  intros Hm Hfail Ho Hl Hok.
  set (n := default 3 retries) in *.
  exists (final_world url (default [] options) n m 0 w),
         (turns_events url (default [] options) n m 0 w),
         (next_id (turns_world url (default [] options) n m 0 w)).
  split; [|split; [|split; [|split]]].
  - apply (fetchWithRetry_success_run url options retries w m latency r);
      [subst n; lia|assumption..].
  - rewrite new_events_final. apply attempts_final.
  - apply final_world_calls.
  - apply attempts_turns.
  - rewrite new_events_final. unfold final_events.
    now rewrite turns_world_calls, turns_world_transport, Ho.
Qed.

Lemma fetchWithRetry_returns_at_once_witness :
  exists w' earlier c,
    fetchWithRetry "https://x/y" None None (idle slow_200) =
      Some (Normal (Some (http_response 200 "late")), w') /\
    attempts (new_events (idle slow_200) w') = 1%nat /\
    calls w' = 1%nat /\
    attempts earlier = 0%nat /\
    new_events (idle slow_200) w' =
      earlier ++ attempt_events "https://x/y" [] attempt_timeout c 0
                   (Responds 5000 (http_response 200 "late")).
Proof.
  apply (fetchWithRetry_returns_at_once "https://x/y" None None (idle slow_200)
           0 5000 (http_response 200 "late")).
  - simpl. lia.
  - intros j Hj. lia.
  - reflexivity.
  - reflexivity.
  - reflexivity.
Defined.

(** C5. An attempt whose answer has not arrived when the timer fires is
    aborted through the signal wired into the request: the controller whose
    signal the transport call carries is the one the timer aborts, the call
    is no longer in flight afterwards, the timer is gone, and the attempt
    ends in the abort error after the timer's delay. *)
Theorem timeout_aborts_transport url options timeout w :
  overdue (timer_delay (default 10000 timeout)) (transport w (calls w)) ->
  exists w',
    fetchWithTimeout url options timeout w = Some (Throw AbortError, w') /\
    new_events w w' =
      [EvSetTimeout (S (next_id w)) (default 10000 timeout)
         (CbAbort (next_id w));
       EvFetch (calls w) url
         (obj_set "signal" (VSignal (next_id w)) (default [] options));
       EvAbort (next_id w);
       EvClearTimeout (S (next_id w))] /\
    obj_get "signal"
      (obj_set "signal" (VSignal (next_id w)) (default [] options)) =
      Some (VSignal (next_id w)) /\
    clock w' = clock w + timer_delay (default 10000 timeout) /\
    ~ In (calls w) (inflight w') /\
    (forall t, In t (timers w') -> timer_id t <> S (next_id w)).
Proof.
  intros Hlate. rewrite fetchWithTimeout_run.
  set (T := default 10000 timeout) in *. set (opts := default [] options).
  assert (Hcase : attempt_completion (timer_delay T) (transport w (calls w))
                    = Throw AbortError /\
                  on_time (timer_delay T) (transport w (calls w)) = false /\
                  elapsed (timer_delay T) (transport w (calls w))
                    = timer_delay T).
  { unfold attempt_completion, on_time, elapsed.
    destruct (transport w (calls w)) as [lat r|lat msg|]; simpl in Hlate;
      try (destruct (Z.ltb_spec lat (timer_delay T)); [lia|]);
      repeat split. }
  destruct Hcase as (Hc & Hon & Hel).
  exists (attempt_world url opts T w). rewrite Hc.
  split; [reflexivity|]. split; [|split; [|split; [|split]]].
  - apply new_events_app. unfold attempt_world, attempt_events.
    cbn [trace]. now rewrite Hon.
  - apply obj_get_set.
  - unfold attempt_world. cbn [clock]. now rewrite Hel.
  - unfold attempt_world. cbn [inflight]. fold T. rewrite Hc.
    apply drop_call_absent.
  - unfold attempt_world, drop_timer. cbn [timers].
    intros t Ht. apply filter_In in Ht. destruct Ht as [_ Ht].
    intros Heq. rewrite Heq, Nat.eqb_refl in Ht. discriminate.
Qed.

Lemma timeout_aborts_transport_witness :
  exists w',
    fetchWithTimeout "https://x/y" (Some [("headers"%string, VObject [])]) (Some 1000)
      (idle slow_200) = Some (Throw AbortError, w') /\
    new_events (idle slow_200) w' =
      [EvSetTimeout 1 1000 (CbAbort 0);
       EvFetch 0 "https://x/y" [("headers"%string, VObject []); ("signal"%string, VSignal 0%nat)];
       EvAbort 0;
       EvClearTimeout 1] /\
    obj_get "signal" [("headers"%string, VObject []); ("signal"%string, VSignal 0%nat)] =
      Some (VSignal 0%nat) /\
    clock w' = 1000 /\
    ~ In 0%nat (inflight w') /\
    (forall t, In t (timers w') -> timer_id t <> 1%nat).
Proof.
  apply (timeout_aborts_transport "https://x/y"
           (Some [("headers"%string, VObject [])]) (Some 1000) (idle slow_200)).
  unfold overdue, timer_delay. simpl. lia.
Defined.

(** C6. A response with a non-success status is a failed attempt like a
    timeout or a transport error, and it triggers a retry exactly as they
    do. When the first m attempts of a call fail, each by a late or missing
    answer, a status that is not a success, or a transport error, and the
    retry count allows more than m attempts, each of them is followed by
    the notice, the wait of 2000 ms and another attempt. The retry loop
    does not look at the cause: a second call whose attempts fail at the
    same positions for other causes makes the same attempts, prints the same
    notices, waits the same backoffs, and both return or both throw. *)
Theorem failures_handled_alike url options retries w1 w2 m :
  Z.of_nat m < default 3 retries ->
  (forall j, (j < m)%nat -> attempt_fails (transport w1 (calls w1 + j))) ->
  (forall j,
     failure_cause (transport w1 (calls w1 + j)) = None <->
     failure_cause (transport w2 (calls w2 + j)) = None) ->
  exists c1 w1' c2 w2',
    fetchWithRetry url options retries w1 = Some (c1, w1') /\
    fetchWithRetry url options retries w2 = Some (c2, w2') /\
    (m < attempts (new_events w1 w1'))%nat /\
    (m < attempts (new_events w2 w2'))%nat /\
    firstn (3 * m) (milestones (new_events w1 w1')) =
      rounds (default 3 retries) 0 m /\
    milestones (new_events w1 w1') = milestones (new_events w2 w2') /\
    raises c1 = raises c2.
Proof.
  intros Hm Hprefix Hsame.
  assert (Hs : forall j, succeeds (transport w1 (calls w1 + j)) =
                         succeeds (transport w2 (calls w2 + j))).
  { intros j. specialize (Hsame j). rewrite <- !succeeds_iff in Hsame.
    destruct (succeeds (transport w1 (calls w1 + j))),
             (succeeds (transport w2 (calls w2 + j))); try reflexivity.
    - symmetry. now apply Hsame.
    - now apply Hsame. }
  destruct (fetchWithRetry_run url options retries w1) as
    (m' & Hm' & Hfail & Hdec & Hrun); [lia|].
  assert (Hle : (m <= m')%nat).
  { destruct Hdec as [Hsucc|Hlast]; [|lia].
    destruct (Nat.le_gt_cases m m') as [Hle|Hgt]; [assumption|].
    apply Hprefix, attempt_fails_succeeds in Hgt. congruence. }
  eexists _, _, _, _. split; [exact Hrun|]. split.
  - apply (fetchWithRetry_decided url options retries w2 m' Hm').
    + intros j Hj. rewrite <- Hs. now apply Hfail.
    + rewrite <- Hs. exact Hdec.
  - rewrite !new_events_final, !milestones_final, !attempts_final.
    split; [lia|]. split; [lia|]. split; [now apply rounds_firstn|].
    split; [reflexivity|].
    specialize (Hs m').
    destruct (succeeds (transport w1 (calls w1 + m'))) eqn:H1.
    + destruct (succeeds_completion _ H1) as (? & ? & _ & _ & _ & ->).
      symmetry in Hs.
      destruct (succeeds_completion _ Hs) as (? & ? & _ & _ & _ & ->).
      reflexivity.
    + rewrite (fails_completion _ H1). symmetry in Hs.
      rewrite (fails_completion _ Hs). reflexivity.
Qed.

Lemma failures_handled_alike_witness :
  exists c1 w1' c2 w2',
    fetchWithRetry "https://x/y" None None (idle missing_then_found) =
      Some (c1, w1') /\
    fetchWithRetry "https://x/y" None None (idle stalled_then_found) =
      Some (c2, w2') /\
    (1 < attempts (new_events (idle missing_then_found) w1'))%nat /\
    (1 < attempts (new_events (idle stalled_then_found) w2'))%nat /\
    firstn 3 (milestones (new_events (idle missing_then_found) w1')) =
      [MAttempt; MNotice "Retrying (1/3)..."; MBackoff 2000] /\
    milestones (new_events (idle missing_then_found) w1') =
      milestones (new_events (idle stalled_then_found) w2') /\
    raises c1 = raises c2.
Proof.
  apply (failures_handled_alike "https://x/y" None None
           (idle missing_then_found) (idle stalled_then_found) 1).
  - simpl. lia.
  - intros j Hj. destruct j as [|j]; [|lia]. simpl. now right.
  - intros j. destruct j as [|j]; simpl; split; intros H;
      solve [discriminate H | reflexivity].
Defined.

(** C7. Two calls with the same arguments that meet the same sequence of
    attempt outcomes end alike, whatever the clock, the pending timers, the
    trace and the number of earlier transport calls are when each starts:
    both return the same response or both throw the same error. *)
Theorem fetchWithRetry_deterministic url options retries w1 w2 :
  (forall j, transport w1 (calls w1 + j) = transport w2 (calls w2 + j)) ->
  exists c1 w1' c2 w2',
    fetchWithRetry url options retries w1 = Some (c1, w1') /\
    fetchWithRetry url options retries w2 = Some (c2, w2') /\
    classify c1 = classify c2 /\
    c1 = c2.
Proof.
  intros Hsame.
  destruct (Z.le_gt_cases (default 3 retries) 0) as [Hn|Hn].
  - exists (Normal None), w1, (Normal None), w2.
    rewrite !fetchWithRetry_no_turn by assumption. repeat split.
  - destruct (fetchWithRetry_run url options retries w1) as
      (m & Hm & Hfail & Hdec & Hrun); [lia|].
    eexists _, _, _, _. split; [exact Hrun|]. split.
    + apply (fetchWithRetry_decided url options retries w2 m Hm).
      * intros j Hj. rewrite <- Hsame. now apply Hfail.
      * rewrite <- Hsame. exact Hdec.
    + rewrite Hsame. split; reflexivity.
Qed.

Lemma fetchWithRetry_deterministic_witness :
  exists c1 w1' c2 w2',
    fetchWithRetry "https://x/y" None (Some 2) (idle missing_then_found) =
      Some (c1, w1') /\
    fetchWithRetry "https://x/y" None (Some 2)
      (replay (idle missing_then_found)
         (mkWorld 12115 6 [] [] 2 missing_then_found [])) =
      Some (c2, w2') /\
    classify c1 = classify c2 /\
    c1 = c2.
Proof.
  apply (fetchWithRetry_deterministic "https://x/y" None (Some 2)
           (idle missing_then_found)
           (replay (idle missing_then_found)
              (mkWorld 12115 6 [] [] 2 missing_then_found []))).
  intros j. simpl. f_equal. lia.
Defined.

(** C8. A call with a retry count of 0 or less makes no turn of the loop:
    no transport attempt, nothing added to the trace, the world untouched,
    and the function returns [undefined] normally, neither a response nor an
    error. *)
Theorem fetchWithRetry_no_attempt url options n w :
  n <= 0 ->
  fetchWithRetry url options (Some n) w = Some (Normal None, w) /\
  attempts (new_events w w) = 0%nat /\
  classify (Normal None) = Empty.
Proof.
  intros Hn. split; [|split].
  - now apply fetchWithRetry_no_turn.
  - now rewrite new_events_same.
  - reflexivity.
Qed.

Lemma fetchWithRetry_no_attempt_witness :
  fetchWithRetry "https://x/y" None (Some 0) (idle always_500) =
    Some (Normal None, idle always_500) /\
  attempts (new_events (idle always_500) (idle always_500)) = 0%nat /\
  classify (Normal None) = Empty.
Proof.
  apply (fetchWithRetry_no_attempt "https://x/y" None 0 (idle always_500)).
  lia.
Defined.

(** C9. Every transport call of a call to the resilient fetch gets the
    caller's URL and the caller's options with only the [signal] property
    set: every other property, the headers among them, keeps its name, its
    value and its place. *)
Theorem options_pass_through url options retries w :
  exists c w',
    fetchWithRetry url options retries w = Some (c, w') /\
    Forall (passes_options url (default [] options)) (new_events w w').
Proof.
  destruct (Z.le_gt_cases (default 3 retries) 0) as [Hn|Hn].
  - exists (Normal None), w. rewrite fetchWithRetry_no_turn by assumption.
    rewrite new_events_same. split; [reflexivity|constructor].
  - destruct (fetchWithRetry_run url options retries w) as
      (m & _ & _ & _ & Hrun); [lia|].
    eexists _, _. split; [exact Hrun|].
    rewrite new_events_final.
    apply final_events_Forall; try (intros; exact I).
    intros c n o. unfold attempt_events. cbn [app].
    apply Forall_cons; [exact I|]. apply Forall_cons.
    + cbn [passes_options]. split; [reflexivity|]. split; [|split].
      * apply obj_others_set.
      * intros k Hk. now apply obj_get_set_other.
      * exists c. split; [apply obj_get_set|apply obj_set_fresh].
    + destruct (on_time (timer_delay attempt_timeout) o);
        repeat (apply Forall_cons; [exact I|]); apply Forall_nil.
Qed.

(** C10. When attempt k decides a call (it succeeds, or it is the last
    attempt the retry count allows), the call has printed exactly k-1
    notices, [Retrying (1/n)...] to [Retrying (k-1/n)...] for the retry
    count n, one after each failed attempt and before the next attempt. *)
Theorem retry_notices url options retries w k :
  (1 <= k)%nat ->
  Z.of_nat k <= default 3 retries ->
  (forall j, (j < k - 1)%nat -> succeeds (transport w (calls w + j)) = false) ->
  succeeds (transport w (calls w + (k - 1))) = true \/
    Z.of_nat k = default 3 retries ->
  exists c w',
    fetchWithRetry url options retries w = Some (c, w') /\
    notices (new_events w w') =
      map (fun j => retrying_message (Z.of_nat j) (default 3 retries))
        (seq 0 (k - 1)) /\
    List.length (notices (new_events w w')) = (k - 1)%nat /\
    filter not_backoff (milestones (new_events w w')) =
      flat_map
        (fun j =>
           [MAttempt;
            MNotice (retrying_message (Z.of_nat j) (default 3 retries))])
        (seq 0 (k - 1))
      ++ [MAttempt].
Proof.
  intros H1 Hk Hfail Hdec. destruct k as [|m]; [lia|].
  replace (S m - 1)%nat with m in * by lia.
  assert (Hnotices :
    notices (final_events url (default [] options) (default 3 retries) m 0 w) =
    map (fun j => retrying_message (Z.of_nat j) (default 3 retries)) (seq 0 m)).
  { unfold notices. rewrite milestones_final, flat_map_app.
    change 0 with (Z.of_nat 0). rewrite rounds_notice_list.
    apply app_nil_r. }
  exists (turn_completion (transport w (calls w + m))),
         (final_world url (default [] options) (default 3 retries) m 0 w).
  rewrite new_events_final, Hnotices.
  split; [|split; [|split]].
  - apply (fetchWithRetry_decided url options retries w m);
      [lia|assumption|].
    destruct Hdec as [?|?]; [now left|right; lia].
  - reflexivity.
  - now rewrite length_map, length_seq.
  - rewrite milestones_final, filter_app.
    change 0 with (Z.of_nat 0). rewrite rounds_notices. reflexivity.
Qed.

Lemma retry_notices_witness :
  exists c w',
    fetchWithRetry "https://x/y" None None (idle third_time_lucky) =
      Some (c, w') /\
    notices (new_events (idle third_time_lucky) w') =
      ["Retrying (1/3)..."%string; "Retrying (2/3)..."%string] /\
    List.length (notices (new_events (idle third_time_lucky) w')) = 2%nat /\
    filter not_backoff (milestones (new_events (idle third_time_lucky) w')) =
      [MAttempt; MNotice "Retrying (1/3)..."; MAttempt;
       MNotice "Retrying (2/3)..."; MAttempt].
Proof.
  apply (retry_notices "https://x/y" None None (idle third_time_lucky) 3).
  - lia.
  - simpl. lia.
  - intros j Hj. simpl in Hj.
    destruct j as [|[|j]]; [reflexivity|reflexivity|lia].
  - left. reflexivity.
Defined.

(** C2, as stated, fails: a caller that passes a timeout of 1000 ms in the
    third position gets an attempt armed with 10000 ms, and a response that
    arrives after 5000 ms is returned instead of timing out. *)
Lemma caller_timeout_not_honoured :
  (exists w',
     fetchWithRetry_call4 "https://x/y" (Some []) (Some 1000) (Some 3)
       (idle slow_200) =
       Some (Normal (Some (http_response 200 "late")), w') /\
     clock w' = 5000 /\
     new_events (idle slow_200) w' =
       [EvSetTimeout 1 10000 (CbAbort 0);
        EvFetch 0 "https://x/y" [("signal"%string, VSignal 0%nat)];
        EvClearTimeout 1]) /\
  ~ (forall url options timeoutMs maxRetries w c w',
       fetchWithRetry_call4 url options (Some timeoutMs) (Some maxRetries) w =
         Some (c, w') ->
       Forall (armed_for timeoutMs) (new_events w w')).
Proof.
  split.
  - eexists. split; [vm_compute; reflexivity|]. split; reflexivity.
  - intros H.
    specialize (H "https://x/y"%string (Some []) 1000 3 (idle slow_200) _ _
                  eq_refl).
    vm_compute in H. inversion H as [|e evs Harm _]. discriminate Harm.
Qed.

Lemma elapsed_bound T o : elapsed T o <= T.
Proof.
  unfold elapsed. destruct o as [lat r|lat msg|];
    try (destruct (Z.ltb_spec lat T)); lia.
Qed.

Lemma armed_for_attempt url options timeout c n o :
  Forall (armed_for timeout) (attempt_events url options timeout c n o).
Proof.
  unfold attempt_events. destruct (on_time (timer_delay timeout) o);
    repeat constructor.
Qed.

(** C2, amended. [fetchWithRetry(url, options = {}, retries = 3)] takes no
    timeout: its third parameter is the retry count, which bounds the number
    of attempts, and every attempt of the loop is armed with the 10000 ms of
    [fetchWithTimeout]'s default. [fetchWithTimeout(url, options = {},
    timeout = 10000)] is the helper that takes a timeout, and an attempt made
    through it lasts no longer than that timeout as the timer takes it. *)
Theorem attempt_timeout_is_fixed url options retries w :
  (exists c w',
     fetchWithRetry url options retries w = Some (c, w') /\
     Forall (armed_for 10000) (new_events w w') /\
     Z.of_nat (attempts (new_events w w')) <= Z.max 0 (default 3 retries)) /\
  (forall timeout,
     exists c w',
       fetchWithTimeout url options timeout w = Some (c, w') /\
       Forall (armed_for (default 10000 timeout)) (new_events w w') /\
       clock w' - clock w <= timer_delay (default 10000 timeout)).
Proof.
  split.
  - destruct (Z.le_gt_cases (default 3 retries) 0) as [Hn|Hn].
    + exists (Normal None), w. rewrite fetchWithRetry_no_turn by assumption.
      rewrite new_events_same. repeat split; [constructor|simpl; lia].
    + destruct (fetchWithRetry_run url options retries w) as
        (m & Hm & _ & _ & Hrun); [lia|].
      eexists _, _. split; [exact Hrun|].
      rewrite new_events_final, attempts_final. split; [|lia].
      apply final_events_Forall; try (intros; exact I).
      intros c n o. apply armed_for_attempt.
  - intros timeout. eexists _, _. split; [apply fetchWithTimeout_run|].
    split.
    + erewrite new_events_app by reflexivity. apply armed_for_attempt.
    + unfold attempt_world. cbn [clock].
      pose proof (elapsed_bound (timer_delay (default 10000 timeout))
                    (transport w (calls w))).
      lia.
Qed.

(** ** Further facts about the retry loop *)

Lemma NoDup_map_injective {A B} (f : A -> B) (l : list A) :
  (forall a b, f a = f b -> a = b) -> NoDup l -> NoDup (map f l).
Proof.
  intros Hinj Hl. induction Hl as [|a l Ha Hl IH]; cbn [map]; constructor.
  - intros Hin. apply in_map_iff in Hin. destruct Hin as (b & Hb & Hin).
    apply Hinj in Hb. now subst b.
  - exact IH.
Qed.

Lemma turn_completion_response o r :
  turn_completion o = Normal (Some r) ->
  ok r = true /\ exists latency,
    o = Responds latency r /\ latency < attempt_timeout.
Proof.
  unfold turn_completion, attempt_completion.
  destruct o as [lat r'|lat msg|]; try discriminate.
  - destruct (Z.ltb_spec lat attempt_timeout) as [Hlat|Hlat]; [|discriminate].
    destruct (ok r') eqn:Hok; [|discriminate].
    intros Heq. injection Heq as <-. split; [assumption|]. now exists lat.
  - destruct (lat <? attempt_timeout); discriminate.
Qed.

Lemma turn_completion_defined o : turn_completion o <> Normal None.
Proof.
  unfold turn_completion.
  destruct (attempt_completion attempt_timeout o) as [r|e]; [|discriminate].
  destruct (ok r); discriminate.
Qed.

Lemma turn_world_next_id url options retries i w :
  next_id (turn_world url options retries i w) = (next_id w + 3)%nat.
Proof. unfold turn_world, backoff_world, attempt_world. cbn [next_id]. lia. Qed.

Lemma turns_world_next_id url options retries m : forall i w,
  next_id (turns_world url options retries m i w) = (next_id w + 3 * m)%nat.
Proof.
  induction m as [|m IH]; intros i w; cbn [turns_world]; [lia|].
  rewrite IH, turn_world_next_id. lia.
Qed.

Lemma turns_world_clock_le url options retries m : forall i w,
  clock (turns_world url options retries m i w) <=
  clock w + 12000 * Z.of_nat m.
Proof.
  induction m as [|m IH]; intros i w; cbn [turns_world]; [lia|].
  specialize (IH (i + 1) (turn_world url options retries i w)).
  rewrite turn_world_clock in IH.
  pose proof (elapsed_bound attempt_timeout (transport w (calls w))).
  unfold attempt_timeout in *. lia.
Qed.

Lemma elapsed_nonneg T o :
  0 <= T ->
  match o with
  | Responds latency _ => 0 <= latency
  | Rejects latency _ => 0 <= latency
  | Hangs => True
  end ->
  0 <= elapsed T o.
Proof.
  intros HT. unfold elapsed.
  destruct o as [lat r|lat msg|]; intros Hlat;
    try (destruct (Z.ltb_spec lat T)); lia.
Qed.

Lemma turns_world_clock_ge url options retries m : forall i w,
  (forall j, (j < m)%nat ->
     0 <= elapsed attempt_timeout (transport w (calls w + j))) ->
  clock w + 2000 * Z.of_nat m <=
  clock (turns_world url options retries m i w).
Proof.
  induction m as [|m IH]; intros i w Hpos; cbn [turns_world]; [lia|].
  specialize (IH (i + 1) (turn_world url options retries i w)).
  rewrite turn_world_clock in IH.
  pose proof (Hpos 0%nat ltac:(lia)) as H0. rewrite Nat.add_0_r in H0.
  assert (clock w + elapsed attempt_timeout (transport w (calls w)) + 2000
            + 2000 * Z.of_nat m
          <= clock (turns_world url options retries m (i + 1)
                      (turn_world url options retries i w))).
  { apply IH. intros j Hj.
    unfold turn_world, backoff_world, attempt_world. cbn [calls transport].
    replace (S (calls w) + j)%nat with (calls w + S j)%nat by lia.
    apply Hpos. lia. }
  lia.
Qed.

Lemma drop_timer_incl id ts t : In t (drop_timer id ts) -> In t ts.
Proof. unfold drop_timer. rewrite filter_In. tauto. Qed.

Lemma turns_world_timers url options retries m : forall i w t,
  In t (timers (turns_world url options retries m i w)) -> In t (timers w).
Proof.
  induction m as [|m IH]; intros i w t; cbn [turns_world]; [tauto|].
  intros H. apply IH in H.
  unfold turn_world, backoff_world, attempt_world in H. cbn [timers next_id] in H.
  now apply drop_timer_incl, drop_timer_incl in H.
Qed.

Lemma signals_app evs evs' : signals (evs ++ evs') = signals evs ++ signals evs'.
Proof. apply flat_map_app. Qed.

Lemma aborts_app evs evs' : aborts (evs ++ evs') = aborts evs ++ aborts evs'.
Proof. apply flat_map_app. Qed.

Lemma armed_ids_app evs evs' :
  armed_ids (evs ++ evs') = armed_ids evs ++ armed_ids evs'.
Proof. apply flat_map_app. Qed.

Lemma cleared_ids_app evs evs' :
  cleared_ids (evs ++ evs') = cleared_ids evs ++ cleared_ids evs'.
Proof. apply flat_map_app. Qed.

Lemma signals_attempt url options timeout c n o :
  signals (attempt_events url options timeout c n o) = [c].
Proof.
  unfold attempt_events, signals. cbn [app flat_map].
  rewrite obj_get_set.
  destruct (on_time (timer_delay timeout) o); reflexivity.
Qed.

Lemma aborts_attempt url options c n o :
  aborts (attempt_events url options attempt_timeout c n o) =
  if on_time attempt_timeout o then [] else [c].
Proof.
  unfold attempt_events. change (timer_delay attempt_timeout) with attempt_timeout.
  destruct (on_time attempt_timeout o); reflexivity.
Qed.

Lemma armed_ids_attempt url options timeout c n o :
  armed_ids (attempt_events url options timeout c n o) = [S c].
Proof.
  unfold attempt_events. destruct (on_time (timer_delay timeout) o); reflexivity.
Qed.

Lemma cleared_ids_attempt url options timeout c n o :
  cleared_ids (attempt_events url options timeout c n o) = [S c].
Proof.
  unfold attempt_events. destruct (on_time (timer_delay timeout) o); reflexivity.
Qed.

(** The controller of the [j]-th attempt of a call that starts in [w]. *)
Lemma signals_turns url options retries m : forall i w,
  signals (turns_events url options retries m i w) =
  map (fun j => (next_id w + 3 * j)%nat) (seq 0 m).
Proof.
  induction m as [|m IH]; intros i w; cbn [turns_events]; [reflexivity|].
  unfold turn_events at 1.
  rewrite !signals_app, signals_attempt, IH, turn_world_next_id.
  cbn [signals flat_map app seq map].
  rewrite <- seq_shift, map_map. f_equal; [f_equal; lia|].
  apply map_ext. intros j. lia.
Qed.

Lemma aborts_turns url options retries m : forall i w,
  aborts (turns_events url options retries m i w) =
  map (fun j => (next_id w + 3 * j)%nat) (overdue_attempts w m).
Proof.
  unfold overdue_attempts.
  induction m as [|m IH]; intros i w; cbn [turns_events]; [reflexivity|].
  unfold turn_events at 1.
  rewrite !aborts_app, aborts_attempt, IH, turn_world_next_id.
  cbn [aborts flat_map app seq filter]. rewrite Nat.add_0_r.
  rewrite <- seq_shift.
  assert (Hshift : forall l,
    map (fun j => (next_id w + 3 + 3 * j)%nat)
      (filter (fun j => negb (on_time attempt_timeout
         (transport (turn_world url options retries i w)
            (calls (turn_world url options retries i w) + j)))) l) =
    map (fun j => (next_id w + 3 * j)%nat)
      (filter (fun j => negb (on_time attempt_timeout
         (transport w (calls w + j)))) (map S l))).
  { induction l as [|a l IHl]; [reflexivity|].
    cbn [map filter].
    unfold turn_world at 1 2, backoff_world, attempt_world.
    cbn [calls transport].
    replace (S (calls w) + a)%nat with (calls w + S a)%nat by lia.
    destruct (on_time attempt_timeout (transport w (calls w + S a)));
      cbn [negb map]; rewrite IHl; [reflexivity|].
    f_equal. lia. }
  rewrite Hshift.
  destruct (on_time attempt_timeout (transport w (calls w)));
    cbn [negb map app]; [reflexivity|].
  f_equal. lia.
Qed.

Lemma armed_ids_turns url options retries m : forall i w,
  armed_ids (turns_events url options retries m i w) =
  map (fun j => S (next_id w + 3 * j)) (seq 0 m).
Proof.
  induction m as [|m IH]; intros i w; cbn [turns_events]; [reflexivity|].
  unfold turn_events at 1.
  rewrite !armed_ids_app, armed_ids_attempt, IH, turn_world_next_id.
  cbn [armed_ids flat_map app seq map].
  rewrite <- seq_shift, map_map. f_equal; [f_equal; lia|].
  apply map_ext. intros j. f_equal. lia.
Qed.

Lemma cleared_ids_turns url options retries m : forall i w,
  cleared_ids (turns_events url options retries m i w) =
  map (fun j => S (next_id w + 3 * j)) (seq 0 m).
Proof.
  induction m as [|m IH]; intros i w; cbn [turns_events]; [reflexivity|].
  unfold turn_events at 1.
  rewrite !cleared_ids_app, cleared_ids_attempt, IH, turn_world_next_id.
  cbn [cleared_ids flat_map app seq map].
  rewrite <- seq_shift, map_map. f_equal; [f_equal; lia|].
  apply map_ext. intros j. f_equal. lia.
Qed.

Lemma overdue_attempts_S w m :
  overdue_attempts w (S m) =
  overdue_attempts w m ++
  (if on_time attempt_timeout (transport w (calls w + m)) then [] else [m]).
Proof.
  unfold overdue_attempts. rewrite seq_S, filter_app. cbn [filter Nat.add].
  destruct (on_time attempt_timeout (transport w (calls w + m))); reflexivity.
Qed.

Lemma signals_final url options retries m i w :
  signals (final_events url options retries m i w) =
  map (fun j => (next_id w + 3 * j)%nat) (seq 0 (S m)).
Proof.
  unfold final_events.
  rewrite signals_app, signals_turns, signals_attempt, turns_world_next_id.
  now rewrite seq_S, map_app.
Qed.

Lemma aborts_final url options retries m i w :
  aborts (final_events url options retries m i w) =
  map (fun j => (next_id w + 3 * j)%nat) (overdue_attempts w (S m)).
Proof.
  unfold final_events.
  rewrite aborts_app, aborts_turns, aborts_attempt, turns_world_next_id,
    turns_world_calls, turns_world_transport, overdue_attempts_S, map_app.
  destruct (on_time attempt_timeout (transport w (calls w + m))); reflexivity.
Qed.

Lemma armed_ids_final url options retries m i w :
  armed_ids (final_events url options retries m i w) =
  map (fun j => S (next_id w + 3 * j)) (seq 0 (S m)).
Proof.
  unfold final_events.
  rewrite armed_ids_app, armed_ids_turns, armed_ids_attempt,
    turns_world_next_id.
  now rewrite seq_S, map_app.
Qed.

Lemma cleared_ids_final url options retries m i w :
  cleared_ids (final_events url options retries m i w) =
  map (fun j => S (next_id w + 3 * j)) (seq 0 (S m)).
Proof.
  unfold final_events.
  rewrite cleared_ids_app, cleared_ids_turns, cleared_ids_attempt,
    turns_world_next_id.
  now rewrite seq_S, map_app.
Qed.

(** ** Further properties of the retry loop *)

Lemma fetchWithRetry_completes_ok url options retries w r w' :
  fetchWithRetry url options retries w = Some (Normal (Some r), w') ->
  ok r = true.
Proof.
  intros Hrun.
  destruct (Z.le_gt_cases (default 3 retries) 0) as [Hn|Hn].
  - rewrite fetchWithRetry_no_turn in Hrun by assumption. discriminate.
  - destruct (fetchWithRetry_run url options retries w) as
      (m & _ & _ & _ & Hrun'); [lia|].
    rewrite Hrun' in Hrun. injection Hrun as Hc _.
    now apply turn_completion_response in Hc.
Qed.

(** X1. Whatever the retry count, a response that [fetchWithRetry] returns
    has [ok] set, and it is the answer the last transport call of the call
    got in under 10000 ms: a caller's own test of [response.ok] never
    fails. *)
Theorem fetchWithRetry_returns_ok url options retries w r w' :
  fetchWithRetry url options retries w = Some (Normal (Some r), w') ->
  ok r = true /\
  exists latency,
    transport w (calls w + (attempts (new_events w w') - 1)) =
      Responds latency r /\
    latency < attempt_timeout.
Proof.
  intros Hrun.
  destruct (Z.le_gt_cases (default 3 retries) 0) as [Hn|Hn].
  - rewrite fetchWithRetry_no_turn in Hrun by assumption. discriminate.
  - destruct (fetchWithRetry_run url options retries w) as
      (m & _ & _ & _ & Hrun'); [lia|].
    rewrite Hrun' in Hrun. injection Hrun as Hc <-.
    rewrite new_events_final, attempts_final.
    replace (S m - 1)%nat with m by lia.
    now apply turn_completion_response.
Qed.

Lemma fetchWithRetry_returns_ok_witness :
  ok (http_response 200 "ok") = true /\
  exists latency,
    transport (idle missing_then_found)
      (calls (idle missing_then_found) +
       (attempts (new_events (idle missing_then_found)
                    (final_world "https://x/y" [] 3 1 0
                       (idle missing_then_found))) - 1)) =
      Responds latency (http_response 200 "ok") /\
    latency < attempt_timeout.
Proof.
  apply (fetchWithRetry_returns_ok "https://x/y" None None
           (idle missing_then_found) (http_response 200 "ok")
           (final_world "https://x/y" [] 3 1 0 (idle missing_then_found))).
  reflexivity.
Defined.

(** X2. With a retry count of at least 1, the default 3 included, a call
    never ends in [undefined]: it returns a response with [ok] set or it
    throws, and it has made at least one attempt. *)
Theorem fetchWithRetry_response_or_error url options retries w :
  1 <= default 3 retries ->
  exists c w',
    fetchWithRetry url options retries w = Some (c, w') /\
    ((exists r, c = Normal (Some r) /\ ok r = true) \/ exists e, c = Throw e) /\
    (1 <= attempts (new_events w w'))%nat.
Proof.
  intros Hn.
  destruct (fetchWithRetry_run url options retries w) as
    (m & _ & _ & _ & Hrun); [lia|].
  eexists _, _. split; [exact Hrun|]. split.
  - destruct (turn_completion (transport w (calls w + m))) as [[r|]|e] eqn:Hc.
    + left. exists r. split; [reflexivity|].
      now apply turn_completion_response in Hc.
    + now apply turn_completion_defined in Hc.
    + right. now exists e.
  - rewrite new_events_final, attempts_final. lia.
Qed.

Lemma fetchWithRetry_response_or_error_witness :
  exists c w',
    fetchWithRetry "https://x/y" None None (idle always_500) = Some (c, w') /\
    ((exists r, c = Normal (Some r) /\ ok r = true) \/ exists e, c = Throw e) /\
    (1 <= attempts (new_events (idle always_500) w'))%nat.
Proof.
  apply (fetchWithRetry_response_or_error "https://x/y" None None
           (idle always_500)).
  simpl. lia.
Defined.

(** X3. A call ends within [12000 * retries - 2000] ms of its start, the
    time of [retries] attempts of 10000 ms and of the 2000 ms waits between
    them, however the transport behaves; with the default retry count that
    is 34 seconds. *)
Theorem fetchWithRetry_time_bound url options retries w :
  exists c w',
    fetchWithRetry url options retries w = Some (c, w') /\
    clock w' - clock w <= Z.max 0 (12000 * default 3 retries - 2000).
Proof.
  destruct (Z.le_gt_cases (default 3 retries) 0) as [Hn|Hn].
  - exists (Normal None), w. rewrite fetchWithRetry_no_turn by assumption.
    split; [reflexivity|lia].
  - destruct (fetchWithRetry_run url options retries w) as
      (m & Hm & _ & _ & Hrun); [lia|].
    eexists _, _. split; [exact Hrun|].
    unfold final_world, attempt_world. cbn [clock].
    change (timer_delay attempt_timeout) with 10000.
    pose proof (turns_world_clock_le url (default [] options)
                  (default 3 retries) m 0 w).
    pose proof (elapsed_bound 10000
                  (transport (turns_world url (default [] options)
                                (default 3 retries) m 0 w)
                     (calls (turns_world url (default [] options)
                               (default 3 retries) m 0 w)))).
    lia.
Qed.

(** X4. Retries cost time: a call that ends after k attempts has taken at
    least [2000 * (k - 1)] ms, the backoff waits between the attempts. *)
Theorem fetchWithRetry_backoff_time url options retries w :
  causal w ->
  exists c w',
    fetchWithRetry url options retries w = Some (c, w') /\
    2000 * (Z.of_nat (attempts (new_events w w')) - 1) <= clock w' - clock w.
Proof.
  intros Hcausal.
  destruct (Z.le_gt_cases (default 3 retries) 0) as [Hn|Hn].
  - exists (Normal None), w. rewrite fetchWithRetry_no_turn by assumption.
    rewrite new_events_same. split; [reflexivity|simpl; lia].
  - destruct (fetchWithRetry_run url options retries w) as
      (m & Hm & _ & _ & Hrun); [lia|].
    eexists _, _. split; [exact Hrun|].
    rewrite new_events_final, attempts_final.
    unfold final_world, attempt_world. cbn [clock].
    change (timer_delay attempt_timeout) with attempt_timeout.
    assert (Hpos : forall n, 0 <= elapsed attempt_timeout (transport w n)).
    { intros n. apply elapsed_nonneg; [unfold attempt_timeout; lia|].
      apply Hcausal. }
    pose proof (turns_world_clock_ge url (default [] options)
                  (default 3 retries) m 0 w (fun j _ => Hpos _)).
    rewrite turns_world_transport.
    pose proof (Hpos (calls (turns_world url (default [] options)
                               (default 3 retries) m 0 w))).
    lia.
Qed.

Lemma fetchWithRetry_backoff_time_witness :
  exists c w',
    fetchWithRetry "https://x/y" None None (idle third_time_lucky) =
      Some (c, w') /\
    2000 * (Z.of_nat (attempts (new_events (idle third_time_lucky) w')) - 1)
      <= clock w' - clock (idle third_time_lucky).
Proof.
  apply (fetchWithRetry_backoff_time "https://x/y" None None
           (idle third_time_lucky)).
  intros n. destruct n as [|[|n]]; simpl; lia.
Defined.

(** X5. A call leaves no timer behind: every timer still armed when it
    completes was armed before the call started. The abort timer of each
    attempt has been cleared or has fired, and each backoff timer has
    fired. *)
Theorem fetchWithRetry_leaves_no_timer url options retries w :
  exists c w',
    fetchWithRetry url options retries w = Some (c, w') /\
    (forall t, In t (timers w') -> In t (timers w)).
Proof.
  destruct (Z.le_gt_cases (default 3 retries) 0) as [Hn|Hn].
  - exists (Normal None), w. rewrite fetchWithRetry_no_turn by assumption.
    split; [reflexivity|tauto].
  - destruct (fetchWithRetry_run url options retries w) as
      (m & _ & _ & _ & Hrun); [lia|].
    eexists _, _. split; [exact Hrun|].
    unfold final_world, attempt_world. cbn [timers].
    intros t Ht. apply drop_timer_incl in Ht.
    now apply turns_world_timers in Ht.
Qed.

(** X6. Every attempt arms one abort timer and clears that same timer,
    whether the attempt succeeds, fails or times out: the timers armed for
    an abort and the timers cleared are the same, in the same order, one per
    attempt. *)
Theorem abort_timers_all_cleared url options retries w :
  exists c w',
    fetchWithRetry url options retries w = Some (c, w') /\
    armed_ids (new_events w w') = cleared_ids (new_events w w') /\
    List.length (armed_ids (new_events w w')) = attempts (new_events w w').
Proof.
  destruct (Z.le_gt_cases (default 3 retries) 0) as [Hn|Hn].
  - exists (Normal None), w. rewrite fetchWithRetry_no_turn by assumption.
    rewrite new_events_same. repeat split.
  - destruct (fetchWithRetry_run url options retries w) as
      (m & _ & _ & _ & Hrun); [lia|].
    eexists _, _. split; [exact Hrun|].
    rewrite new_events_final, armed_ids_final, cleared_ids_final,
      attempts_final.
    split; [reflexivity|]. now rewrite length_map, length_seq.
Qed.

(** X7. Every attempt gets an abort controller of its own: the signals
    handed to the transport calls of one call are pairwise distinct, none
    of them existed before the call, and there is one per attempt. A signal
    aborted by a timeout is never reused for a retry. *)
Theorem fresh_signal_per_attempt url options retries w :
  exists c w',
    fetchWithRetry url options retries w = Some (c, w') /\
    NoDup (signals (new_events w w')) /\
    Forall (fun s => (next_id w <= s)%nat) (signals (new_events w w')) /\
    List.length (signals (new_events w w')) = attempts (new_events w w').
Proof.
  destruct (Z.le_gt_cases (default 3 retries) 0) as [Hn|Hn].
  - exists (Normal None), w. rewrite fetchWithRetry_no_turn by assumption.
    rewrite new_events_same. repeat split; constructor.
  - destruct (fetchWithRetry_run url options retries w) as
      (m & _ & _ & _ & Hrun); [lia|].
    eexists _, _. split; [exact Hrun|].
    rewrite new_events_final, signals_final, attempts_final.
    split; [|split].
    + apply NoDup_map_injective; [|apply seq_NoDup].
      intros a b Hab. lia.
    + apply Forall_forall. intros s Hs. apply in_map_iff in Hs.
      destruct Hs as (j & <- & _). lia.
    + now rewrite length_map, length_seq.
Qed.

(** X8. A controller is aborted exactly when its attempt is cut short by
    the 10000 ms timer: the controllers aborted during a call are those of
    the overdue attempts, in order. An attempt that settles in time, with
    whatever result, is never aborted. *)
Theorem aborts_are_the_overdue_attempts url options retries w :
  exists c w',
    fetchWithRetry url options retries w = Some (c, w') /\
    aborts (new_events w w') =
      map (fun j => nth j (signals (new_events w w')) 0%nat)
        (overdue_attempts w (attempts (new_events w w'))).
Proof.
  destruct (Z.le_gt_cases (default 3 retries) 0) as [Hn|Hn].
  - exists (Normal None), w. rewrite fetchWithRetry_no_turn by assumption.
    rewrite new_events_same. split; reflexivity.
  - destruct (fetchWithRetry_run url options retries w) as
      (m & _ & _ & _ & Hrun); [lia|].
    eexists _, _. split; [exact Hrun|].
    rewrite new_events_final, aborts_final, signals_final, attempts_final.
    apply map_ext_in. intros j Hj.
    unfold overdue_attempts in Hj. apply filter_In in Hj.
    destruct Hj as [Hj _]. apply in_seq in Hj.
    rewrite (nth_indep _ 0%nat (next_id w + 3 * 0)%nat)
      by (rewrite length_map, length_seq; lia).
    rewrite (map_nth (fun j => (next_id w + 3 * j)%nat)).
    rewrite seq_nth by lia. reflexivity.
Qed.

(** ** The image proxy route *)

(** The handler once the upstream fetch has completed. *)
Lemma proxy_image_after_fetch buffer sharp_resize_jpeg imageUrl w c w1 :
  fetchWithRetry imageUrl (Some proxy_image_request) None w = Some (c, w1) ->
  proxy_image buffer sharp_resize_jpeg imageUrl w =
  match c with
  | Normal (Some r) =>
      if ok r then
        match buffer r w1 with
        | Some (Normal b, w2) =>
            match sharp_resize_jpeg b w2 with
            | Some (Normal image, w3) => Some (Normal (image_reply image), w3)
            | Some (Throw _, w3) => Some (Normal image_error_reply, w3)
            | None => None
            end
        | Some (Throw _, w2) => Some (Normal image_error_reply, w2)
        | None => None
        end
      else Some (Normal image_error_reply, w1)
  | _ => Some (Normal image_error_reply, w1)
  end.
Proof.
  intros Hrun. unfold proxy_image, try_catch, bind. rewrite Hrun.
  destruct c as [[r|]|e]; try reflexivity.
  destruct (ok r); cbn [negb]; [|reflexivity].
  destruct (buffer r w1) as [[[b|e] w2]|]; try reflexivity.
  destruct (sharp_resize_jpeg b w2) as [[[image|e] w3]|]; reflexivity.
Qed.

(** The upstream fetch of the handler completes, with a response that has
    [ok] set or with an error. *)
Lemma proxy_image_fetch imageUrl w :
  exists c w1,
    fetchWithRetry imageUrl (Some proxy_image_request) None w = Some (c, w1) /\
    ((exists r, c = Normal (Some r) /\ ok r = true) \/ exists e, c = Throw e).
Proof.
  destruct (fetchWithRetry_run imageUrl (Some proxy_image_request) None w) as
    (m & _ & _ & _ & Hrun); [simpl; lia|].
  eexists _, _. split; [exact Hrun|].
  destruct (turn_completion (transport w (calls w + m))) as [[r|]|e] eqn:Hc.
  - left. exists r. split; [reflexivity|].
    now apply turn_completion_response in Hc.
  - now apply turn_completion_defined in Hc.
  - right. now exists e.
Qed.

(** X9. The image proxy never lets an error escape, and it has two replies
    only: whenever the handler completes it completes normally, having
    either sent the converted image as [image/jpeg] or answered status 500
    with the JSON body [{error: "Failed to load image"}]. It completes
    whenever the body read and the image conversion complete. *)
Theorem proxy_image_reply_forms buffer sharp_resize_jpeg imageUrl w :
  (forall c w',
     proxy_image buffer sharp_resize_jpeg imageUrl w = Some (c, w') ->
     exists reply,
       c = Normal reply /\
       (reply = image_error_reply \/ exists image, reply = image_reply image)) /\
  ((forall r w1, buffer r w1 <> None) ->
   (forall b w2, sharp_resize_jpeg b w2 <> None) ->
   exists reply w',
     proxy_image buffer sharp_resize_jpeg imageUrl w = Some (Normal reply, w')).
Proof.
  destruct (proxy_image_fetch imageUrl w) as (c & w1 & Hrun & Hc).
  rewrite (proxy_image_after_fetch buffer sharp_resize_jpeg _ _ _ _ Hrun).
  destruct Hc as [(r & -> & Hok)|(e & ->)].
  - rewrite Hok. split.
    + intros c w' H.
      destruct (buffer r w1) as [[[b|e] w2]|]; try discriminate;
        [destruct (sharp_resize_jpeg b w2) as [[[image|e] w3]|];
           try discriminate|];
        injection H as <- _; eexists; split; try reflexivity;
        solve [now left | right; eexists; reflexivity].
    + intros Hb Hs. specialize (Hb r w1).
      destruct (buffer r w1) as [[[b|e] w2]|]; [| |contradiction];
        [|eexists _, _; reflexivity].
      specialize (Hs b w2).
      destruct (sharp_resize_jpeg b w2) as [[[image|e] w3]|];
        [| |contradiction]; eexists _, _; reflexivity.
  - split.
    + intros c w' H. injection H as <- _. eexists. split; [reflexivity|].
      now left.
    + intros _ _. eexists _, _. reflexivity.
Qed.

(** X10. When the upstream fails three times in a row, the image proxy
    answers 500 with [{error: "Failed to load image"}] after exactly three
    upstream requests, whatever the body reader and the image library would
    have done. *)
Theorem proxy_image_upstream_down buffer sharp_resize_jpeg imageUrl w :
  (forall j, (j < 3)%nat -> succeeds (transport w (calls w + j)) = false) ->
  exists w',
    proxy_image buffer sharp_resize_jpeg imageUrl w =
      Some (Normal image_error_reply, w') /\
    attempts (new_events w w') = 3%nat /\
    notices (new_events w w') =
      ["Retrying (1/3)..."%string; "Retrying (2/3)..."%string].
Proof.
  intros Hfail.
  pose proof (fetchWithRetry_failure_run imageUrl (Some proxy_image_request)
                None w 2 eq_refl Hfail) as Hrun.
  eexists. split; [apply (proxy_image_after_fetch _ _ _ _ _ _ Hrun)|].
  rewrite new_events_final, attempts_final. split; [reflexivity|].
  unfold notices. rewrite milestones_final. reflexivity.
Qed.

Lemma proxy_image_upstream_down_witness :
  exists w',
    proxy_image (fun r => ret (body r)) (fun b => ret b)
      "https://uploads.mangadex.org/covers/a/b.jpg" (idle always_500) =
      Some (Normal image_error_reply, w') /\
    attempts (new_events (idle always_500) w') = 3%nat /\
    notices (new_events (idle always_500) w') =
      ["Retrying (1/3)..."%string; "Retrying (2/3)..."%string].
Proof.
  apply (proxy_image_upstream_down (fun r => ret (body r))
           (fun b => ret b) "https://uploads.mangadex.org/covers/a/b.jpg"
           (idle always_500)).
  intros j _. reflexivity.
Defined.

(** X11. What the image proxy does is decided by its three steps, the
    upstream fetch, the body read and the image conversion. It sends an
    image, the output of the conversion, exactly when all three succeed. It
    answers 500 exactly when the fetch throws, or the body read throws, or
    the conversion throws. It gives no reply at all exactly when the fetch
    succeeded and the body read or the conversion never completes. *)
Theorem proxy_image_outcomes buffer sharp_resize_jpeg imageUrl w :
  (forall image w',
     proxy_image buffer sharp_resize_jpeg imageUrl w =
       Some (Normal (image_reply image), w') <->
     exists r b w1 w2,
       fetchWithRetry imageUrl (Some proxy_image_request) None w =
         Some (Normal (Some r), w1) /\
       buffer r w1 = Some (Normal b, w2) /\
       sharp_resize_jpeg b w2 = Some (Normal image, w')) /\
  (forall w',
     proxy_image buffer sharp_resize_jpeg imageUrl w =
       Some (Normal image_error_reply, w') <->
     (exists e,
        fetchWithRetry imageUrl (Some proxy_image_request) None w =
          Some (Throw e, w')) \/
     (exists r w1,
        fetchWithRetry imageUrl (Some proxy_image_request) None w =
          Some (Normal (Some r), w1) /\
        ((exists e, buffer r w1 = Some (Throw e, w')) \/
         exists b w2 e,
           buffer r w1 = Some (Normal b, w2) /\
           sharp_resize_jpeg b w2 = Some (Throw e, w')))) /\
  (proxy_image buffer sharp_resize_jpeg imageUrl w = None <->
   exists r w1,
     fetchWithRetry imageUrl (Some proxy_image_request) None w =
       Some (Normal (Some r), w1) /\
     (buffer r w1 = None \/
      exists b w2,
        buffer r w1 = Some (Normal b, w2) /\
        sharp_resize_jpeg b w2 = None)).
Proof.
  destruct (proxy_image_fetch imageUrl w) as (c & w1 & Hrun & Hc).
  rewrite (proxy_image_after_fetch buffer sharp_resize_jpeg _ _ _ _ Hrun).
  rewrite Hrun. unfold image_reply, image_error_reply.
  destruct Hc as [(r & -> & Hok)|(e & ->)].
  - rewrite Hok.
    destruct (buffer r w1) as [[[b|eb] w2]|] eqn:Hb;
      [destruct (sharp_resize_jpeg b w2) as [[[img|es] w3]|] eqn:Hs| |].
    all: split; [|split].
    all: try (intros image w').
    all: try (intros w').
    all: split; intros H.
    all: try discriminate H.
    all: try (injection H as; subst).
    all: repeat match goal with
         | H : exists _, _ |- _ => destruct H
         | H : _ /\ _ |- _ => destruct H
         | H : _ \/ _ |- _ => destruct H
         end.
    all: repeat match goal with
         | H : Some (Normal (Some _), _) = Some (Normal (Some _), _) |- _ =>
             injection H as; subst
         | H : Some (Normal (Some _), _) = Some (Throw _, _) |- _ =>
             discriminate H
         end.
    all: try congruence.
    all: eauto 12.
  - split; [|split].
    all: try (intros image w').
    all: try (intros w').
    all: split; intros H.
    all: try discriminate H.
    all: try (injection H as; subst).
    all: repeat match goal with
         | H : exists _, _ |- _ => destruct H
         | H : _ /\ _ |- _ => destruct H
         | H : _ \/ _ |- _ => destruct H
         end.
    all: try congruence.
    all: eauto 12.
Qed.

(** ** Shaping the manga lists *)

(** X12. The two ways the routes compute the popularity tag agree: from 30
    days after the epoch on, [/new-manga], which looks at the creation date
    without testing that there is one, tags every manga as the other routes
    do. *)
Theorem popularity_tags_agree Date_parse now follows c :
  Date_parse ""%string = None ->
  30 * day_ms <= now ->
  popularity_tag_new_manga Date_parse now follows c =
  popularity_tag Date_parse now follows c.
Proof.
  intros Hempty Hnow.
  unfold popularity_tag_new_manga, popularity_tag.
  destruct c as [| |n|s]; cbn [created_truthy new_Date within_30_days].
  - reflexivity.
  - destruct (Z.ltb_spec (now - 0) (30 * day_ms)); [lia|reflexivity].
  - destruct (Z.eqb_spec n 0) as [->|Hn]; cbn [negb]; [|reflexivity].
    cbn [Z.abs Z.leb Z.compare within_30_days].
    destruct (Z.ltb_spec (now - 0) (30 * day_ms)); [lia|reflexivity].
  - destruct (String.eqb_spec s "") as [->|Hs]; cbn [negb]; [|reflexivity].
    now rewrite Hempty.
Qed.

Lemma popularity_tags_agree_witness :
  popularity_tag_new_manga
    (fun s => if String.eqb s "" then None else Some 1700000000000)
    1700000500000 60000 CreatedNull =
  popularity_tag
    (fun s => if String.eqb s "" then None else Some 1700000000000)
    1700000500000 60000 CreatedNull.
Proof.
  apply (popularity_tags_agree
           (fun s => if String.eqb s "" then None else Some 1700000000000)
           1700000500000 60000 CreatedNull).
  - reflexivity.
  - unfold day_ms. lia.
Defined.

Lemma NoDup_map_eq {A} (f : A -> nat) (l : list A) x y :
  NoDup (map f l) -> In x l -> In y l -> f x = f y -> x = y.
Proof.
  induction l as [|a l IH]; cbn [map]; intros Hnd Hx Hy Hf; [destruct Hx|].
  inversion Hnd as [|? ? Ha Hl]; subst.
  destruct Hx as [->|Hx], Hy as [->|Hy].
  - reflexivity.
  - exfalso. apply Ha. rewrite Hf. now apply in_map.
  - exfalso. apply Ha. rewrite <- Hf. now apply in_map.
  - now apply IH.
Qed.

Lemma includes_filter {Manga} (ref : Manga -> nat) (p : Manga -> bool) data m :
  NoDup (map ref data) -> In m data ->
  includes Manga ref (filter p data) m = p m.
Proof.
  intros Hnd Hm. unfold includes.
  destruct (p m) eqn:Hp.
  - apply existsb_exists. exists m. split; [|apply Nat.eqb_refl].
    apply filter_In. now split.
  - apply Bool.not_true_is_false. intros Hex.
    apply existsb_exists in Hex. destruct Hex as (x & Hx & Heq).
    apply filter_In in Hx. destruct Hx as [Hx Hpx].
    apply Nat.eqb_eq in Heq.
    assert (x = m) by now apply (NoDup_map_eq ref data).
    subst x. congruence.
Qed.

Lemma older_manga_are_the_rest {Manga} (ref : Manga -> nat) (p : Manga -> bool)
    data :
  NoDup (map ref data) ->
  filter (fun m => negb (includes Manga ref (filter p data) m)) data =
  filter (fun m => negb (p m)) data.
Proof.
  intros Hnd. apply filter_ext_in. intros m Hm.
  now rewrite includes_filter.
Qed.

Lemma filter_lengths {A} (p : A -> bool) (l : list A) :
  (List.length (filter p l) + List.length (filter (fun a => negb (p a)) l))%nat
  = List.length l.
Proof.
  induction l as [|a l IH]; [reflexivity|].
  cbn [filter]. destruct (p a); cbn [negb List.length]; lia.
Qed.

(** X13. [/new-manga] answers with ten manga whenever the feed has ten,
    and with the whole feed when it has fewer: the selection has
    [min 10 (length data)] entries. *)
Theorem new_manga_selection_length Date_parse Manga ref createdAt now data :
  NoDup (map ref data) ->
  List.length (new_manga_selection Date_parse Manga ref createdAt now data) =
  Nat.min 10 (List.length data).
Proof.
  intros Hnd. unfold new_manga_selection.
  set (p := fun manga => within_30_days now (new_Date Date_parse (createdAt manga))).
  rewrite (older_manga_are_the_rest ref p data Hnd).
  pose proof (filter_lengths p data) as Hlen.
  destruct (Nat.ltb_spec (List.length (filter p data)) 10).
  - rewrite length_firstn, length_app, length_firstn. lia.
  - rewrite length_firstn. lia.
Qed.

Lemma new_manga_selection_length_witness :
  List.length
    (new_manga_selection (fun _ => None) (nat * created) fst snd 1700000500000
       [(1%nat, CreatedNumber 1700000000000); (2%nat, CreatedNull);
        (3%nat, CreatedNumber 1699999000000)]) =
  Nat.min 10 3.
Proof.
  apply (new_manga_selection_length (fun _ => None) (nat * created) fst snd
           1700000500000
           [(1%nat, CreatedNumber 1700000000000); (2%nat, CreatedNull);
            (3%nat, CreatedNumber 1699999000000)]).
  repeat constructor; simpl; intuition lia.
Defined.

(** X14. [/new-manga] puts the manga of the last 30 days first: its
    selection is the first ten of the feed rearranged with the recent manga,
    in feed order, before the others, in feed order. Older manga are used
    only to fill up. *)
Theorem new_manga_selection_order Date_parse Manga ref createdAt now data :
  NoDup (map ref data) ->
  new_manga_selection Date_parse Manga ref createdAt now data =
  firstn 10
    (filter (fun m => within_30_days now (new_Date Date_parse (createdAt m)))
       data ++
     filter (fun m =>
               negb (within_30_days now (new_Date Date_parse (createdAt m))))
       data).
Proof.
  intros Hnd. unfold new_manga_selection.
  set (p := fun manga => within_30_days now (new_Date Date_parse (createdAt manga))).
  rewrite (older_manga_are_the_rest ref p data Hnd).
  destruct (Nat.ltb_spec (List.length (filter p data)) 10) as [Hlt|Hge].
  - rewrite !firstn_app.
    rewrite firstn_firstn.
    replace (Nat.min (10 - List.length (filter p data))
               (10 - List.length (filter p data)))
      with (10 - List.length (filter p data))%nat by lia.
    reflexivity.
  - rewrite firstn_app.
    replace (10 - List.length (filter p data))%nat with 0%nat by lia.
    cbn [firstn]. now rewrite app_nil_r.
Qed.

Lemma new_manga_selection_order_witness :
  new_manga_selection (fun _ => None) (nat * created) fst snd 1700000500000
    [(1%nat, CreatedNull); (2%nat, CreatedNumber 1700000000000)] =
  firstn 10
    (filter (fun m => within_30_days 1700000500000
                        (new_Date (fun _ => None) (snd m)))
       [(1%nat, CreatedNull); (2%nat, CreatedNumber 1700000000000)] ++
     filter (fun m => negb (within_30_days 1700000500000
                              (new_Date (fun _ => None) (snd m))))
       [(1%nat, CreatedNull); (2%nat, CreatedNumber 1700000000000)]).
Proof.
  apply (new_manga_selection_order (fun _ => None) (nat * created) fst snd
           1700000500000
           [(1%nat, CreatedNull); (2%nat, CreatedNumber 1700000000000)]).
  repeat constructor; simpl; intuition lia.
Defined.

(** ** Building upstream queries *)

Lemma append_assoc_str (a b c : string) : (a +++ b) +++ c = a +++ b +++ c.
Proof. induction a as [|x a IH]; cbn [String.append]; [|rewrite IH]; reflexivity. Qed.

Lemma length_append_str (a b : string) :
  String.length (a +++ b) = (String.length a + String.length b)%nat.
Proof. induction a as [|x a IH]; cbn [String.append String.length]; [|rewrite IH]; reflexivity. Qed.

Lemma encodeURIComponent_append a b :
  encodeURIComponent (a +++ b) = encodeURIComponent a +++ encodeURIComponent b.
Proof.
  induction a as [|x a IH]; cbn [String.append encodeURIComponent];
    [reflexivity|].
  destruct (unreserved x); cbn [String.append]; now rewrite IH.
Qed.

Lemma encodeURIComponent_unreserved s :
  all_unreserved s = true -> encodeURIComponent s = s.
Proof.
  induction s as [|x s IH]; cbn [all_unreserved encodeURIComponent];
    [reflexivity|].
  intros H. apply andb_prop in H. destruct H as [Hx Hs].
  now rewrite Hx, IH.
Qed.

Lemma all_unreserved_uint d :
  all_unreserved (NilEmpty.string_of_uint d) = true.
Proof. induction d; cbn [NilEmpty.string_of_uint all_unreserved]; auto. Qed.

Lemma all_unreserved_Z z : all_unreserved (string_of_Z z) = true.
Proof.
  unfold string_of_Z, NilZero.string_of_int, NilZero.string_of_uint.
  destruct (Z.to_int z) as [d|d]; destruct d;
    try reflexivity;
    try apply (all_unreserved_uint (Decimal.D0 _));
    try apply (all_unreserved_uint (Decimal.D1 _));
    try apply (all_unreserved_uint (Decimal.D2 _));
    try apply (all_unreserved_uint (Decimal.D3 _));
    try apply (all_unreserved_uint (Decimal.D4 _));
    try apply (all_unreserved_uint (Decimal.D5 _));
    try apply (all_unreserved_uint (Decimal.D6 _));
    try apply (all_unreserved_uint (Decimal.D7 _));
    try apply (all_unreserved_uint (Decimal.D8 _));
    try apply (all_unreserved_uint (Decimal.D9 _)).
Qed.

Lemma all_unreserved_padStart2 s :
  all_unreserved s = true -> all_unreserved (padStart2 s) = true.
Proof.
  intros Hs. unfold padStart2.
  destruct (String.length s) as [|[|n]]; cbn [String.append all_unreserved];
    rewrite ?Hs; reflexivity.
Qed.

Lemma encodeURIComponent_field z :
  encodeURIComponent (padStart2 (string_of_Z z)) = padStart2 (string_of_Z z).
Proof.
  apply encodeURIComponent_unreserved, all_unreserved_padStart2,
    all_unreserved_Z.
Qed.

(** A property checked on every integer of a range holds on the range. *)
Lemma Z_range_check (p : Z -> bool) (lo hi : Z) :
  forallb p (map (fun k => lo + Z.of_nat k) (seq 0 (Z.to_nat (hi - lo + 1))))
    = true ->
  forall z, lo <= z <= hi -> p z = true.
Proof.
  intros Hall z Hz. rewrite forallb_forall in Hall. apply Hall.
  apply in_map_iff. exists (Z.to_nat (z - lo)). split; [lia|].
  apply in_seq. lia.
Qed.

Lemma length_year z :
  1000 <= z <= 9999 -> String.length (string_of_Z z) = 4%nat.
Proof.
  intros Hz. apply Nat.eqb_eq.
  apply (Z_range_check (fun z => Nat.eqb (String.length (string_of_Z z)) 4)
           1000 9999); [vm_compute; reflexivity|lia].
Qed.

Lemma length_field z :
  0 <= z <= 99 -> String.length (padStart2 (string_of_Z z)) = 2%nat.
Proof.
  intros Hz. apply Nat.eqb_eq.
  apply (Z_range_check
           (fun z => Nat.eqb (String.length (padStart2 (string_of_Z z))) 2)
           0 99); [vm_compute; reflexivity|lia].
Qed.

(** X15. The date [/top-weekly] sends upstream has one fixed form: the
    year, month, day, hours, minutes and seconds of local time with the
    five last fields on two digits, [-] and [T] as they are and each [:]
    escaped as [%3A]; for a year of four digits it is 23 characters long. *)
Theorem getEncodedCurrentDate_form now :
  1000 <= getFullYear now <= 9999 ->
  0 <= getMonth now <= 11 ->
  1 <= getDate now <= 31 ->
  0 <= getHours now <= 23 ->
  0 <= getMinutes now <= 59 ->
  0 <= getSeconds now <= 59 ->
  getEncodedCurrentDate now =
    string_of_Z (getFullYear now) +++ "-" +++
    padStart2 (string_of_Z (getMonth now + 1)) +++ "-" +++
    padStart2 (string_of_Z (getDate now)) +++ "T" +++
    padStart2 (string_of_Z (getHours now)) +++ "%3A" +++
    padStart2 (string_of_Z (getMinutes now)) +++ "%3A" +++
    padStart2 (string_of_Z (getSeconds now)) /\
  String.length (getEncodedCurrentDate now) = 23%nat.
Proof.
  intros Hy Hmo Hd Hh Hmi Hs.
  assert (Hform : getEncodedCurrentDate now =
    string_of_Z (getFullYear now) +++ "-" +++
    padStart2 (string_of_Z (getMonth now + 1)) +++ "-" +++
    padStart2 (string_of_Z (getDate now)) +++ "T" +++
    padStart2 (string_of_Z (getHours now)) +++ "%3A" +++
    padStart2 (string_of_Z (getMinutes now)) +++ "%3A" +++
    padStart2 (string_of_Z (getSeconds now))).
  { unfold getEncodedCurrentDate. cbv zeta.
    rewrite !encodeURIComponent_append, !encodeURIComponent_field.
    rewrite (encodeURIComponent_unreserved (string_of_Z (getFullYear now)))
      by apply all_unreserved_Z.
    reflexivity. }
  split; [exact Hform|]. rewrite Hform.
  rewrite !length_append_str.
  rewrite length_year by assumption.
  rewrite !length_field by lia.
  reflexivity.
Qed.

Lemma getEncodedCurrentDate_form_witness :
  getEncodedCurrentDate (mkLocalTime 2026 9 26 4 5 9) =
    "2026-10-26T04%3A05%3A09"%string /\
  String.length (getEncodedCurrentDate (mkLocalTime 2026 9 26 4 5 9)) = 23%nat.
Proof.
  apply (getEncodedCurrentDate_form (mkLocalTime 2026 9 26 4 5 9));
    simpl; lia.
Defined.

Lemma split_comma_nonempty s : split_comma s <> [].
Proof.
  destruct s as [|c s]; cbn [split_comma]; [discriminate|].
  destruct (Ascii.eqb c ","); [discriminate|].
  destruct (split_comma s); discriminate.
Qed.

Lemma split_comma_plain s : has_comma s = false -> split_comma s = [s].
Proof.
  induction s as [|c s IH]; cbn [has_comma split_comma]; [reflexivity|].
  intros H. apply Bool.orb_false_iff in H. destruct H as [Hc Hs].
  rewrite Hc, IH by assumption. reflexivity.
Qed.

Lemma split_comma_cons g rest :
  has_comma g = false ->
  split_comma (g +++ "," +++ rest) = g :: split_comma rest.
Proof.
  induction g as [|c g IH]; cbn [has_comma String.append split_comma].
  - intros _. reflexivity.
  - intros H. apply Bool.orb_false_iff in H. destruct H as [Hc Hg].
    cbn [String.append] in IH. rewrite Hc, IH by assumption. reflexivity.
Qed.

(** Splitting at the commas undoes joining with commas. *)
Lemma split_comma_concat gs :
  gs <> [] ->
  Forall (fun g => has_comma g = false) gs ->
  split_comma (String.concat "," gs) = gs.
Proof.
  induction gs as [|g gs IH]; [congruence|]. intros _ Hall.
  inversion Hall as [|? ? Hg Hgs]; subst.
  destruct gs as [|g' gs].
  - cbn [String.concat]. now apply split_comma_plain.
  - change (String.concat "," (g :: g' :: gs))
      with (g +++ "," +++ String.concat "," (g' :: gs)).
    rewrite split_comma_cons by assumption.
    rewrite IH; [reflexivity|discriminate|assumption].
Qed.

(** X16. [/list-mangas] turns a comma-separated list of genre ids into one
    [includedTags[]] parameter per id, in the same order, joined by [&]:
    for ids without commas, not all empty, the filter built from their
    comma-joined list is the [&]-joined list of their parameters. *)
Theorem genreFilter_one_parameter_per_id gs :
  Forall (fun g => has_comma g = false) gs ->
  String.concat "," gs <> ""%string ->
  genreFilter (String.concat "," gs) =
  String.concat "&" (map (fun g => "includedTags[]=" +++ g) gs).
Proof.
  intros Hall Hne. unfold genreFilter.
  destruct (String.eqb_spec (String.concat "," gs) "") as [He|_];
    [contradiction|].
  rewrite split_comma_concat; [reflexivity| |assumption].
  intros ->. now apply Hne.
Qed.

Lemma genreFilter_one_parameter_per_id_witness :
  genreFilter "391b0423,423e2eae" =
  "includedTags[]=391b0423&includedTags[]=423e2eae"%string.
Proof.
  apply (genreFilter_one_parameter_per_id ["391b0423"; "423e2eae"]%string).
  - repeat constructor.
  - discriminate.
Defined.

(** ** The front-end scripts *)

Lemma contains_add l c c' :
  classList_contains (classList_add l c) c' =
  classList_contains l c' || String.eqb c' c.
Proof.
  unfold classList_add.
  destruct (classList_contains l c) eqn:Hc.
  - destruct (String.eqb_spec c' c) as [-> | _];
      [now rewrite Hc|now rewrite Bool.orb_false_r].
  - unfold classList_contains. rewrite existsb_app. cbn [existsb].
    now rewrite Bool.orb_false_r.
Qed.

Lemma contains_remove l c c' :
  classList_contains (classList_remove l c) c' =
  classList_contains l c' && negb (String.eqb c' c).
Proof.
  unfold classList_contains, classList_remove.
  induction l as [|x l IH]; cbn [filter existsb]; [reflexivity|].
  destruct (String.eqb_spec x c) as [-> | Hx]; cbn [negb existsb]; rewrite IH.
  - destruct (String.eqb_spec c' c); cbn [negb orb];
      [now rewrite !Bool.andb_false_r|now rewrite Bool.andb_true_r].
  - destruct (String.eqb_spec c' x) as [-> | Hc']; cbn [orb]; [|reflexivity].
    destruct (String.eqb_spec x c); [contradiction|reflexivity].
Qed.

Lemma contains_genre_item_click l c :
  classList_contains (genre_item_click l) c =
  if String.eqb c "active" then
    negb (classList_contains l "active") && negb (classList_contains l "inactive")
  else if String.eqb c "inactive" then classList_contains l "active"
  else classList_contains l c.
Proof.
  unfold genre_item_click.
  destruct (classList_contains l "active") eqn:Ha;
    [|destruct (classList_contains l "inactive") eqn:Hi];
    rewrite ?contains_add, ?contains_remove;
    destruct (String.eqb_spec c "active") as [Hca | Hca];
    destruct (String.eqb_spec c "inactive") as [Hci | Hci];
    try (rewrite Hca in Hci; discriminate Hci);
    try rewrite Hca; try rewrite Hci;
    rewrite ?Ha, ?Hi; cbn [andb orb negb];
    rewrite ?Bool.andb_true_r, ?Bool.orb_false_r, ?Bool.orb_true_r;
    reflexivity.
Qed.

(** X17. A click on a genre filter item touches only the classes [active]
    and [inactive], and never leaves both on the item, whatever classes it
    had before. *)
Theorem genre_item_click_exclusive l :
  classList_contains (genre_item_click l) "active" &&
    classList_contains (genre_item_click l) "inactive" = false /\
  forall c, c <> "active"%string -> c <> "inactive"%string ->
    classList_contains (genre_item_click l) c = classList_contains l c.
Proof.
  split.
  - rewrite !contains_genre_item_click. cbn [String.eqb Ascii.eqb Bool.eqb].
    destruct (classList_contains l "active"),
             (classList_contains l "inactive"); reflexivity.
  - intros c Ha Hi. rewrite contains_genre_item_click.
    destruct (String.eqb_spec c "active"); [contradiction|].
    destruct (String.eqb_spec c "inactive"); [contradiction|reflexivity].
Qed.

Lemma genre_item_state_click l :
  genre_item_state (genre_item_click l) =
  genre_state_next (genre_item_state l).
Proof.
  unfold genre_item_state. rewrite !contains_genre_item_click.
  cbn [String.eqb Ascii.eqb Bool.eqb].
  destruct (classList_contains l "active"),
           (classList_contains l "inactive"); reflexivity.
Qed.

(** X18. The genre filter item has three states, included ([active]),
    excluded ([inactive]) and neither, and clicks go round them: on an item
    that is not both [active] and [inactive], a click on a neutral item
    includes it, a click on an included item excludes it, a click on an
    excluded item makes it neutral; one click and two clicks each leave the
    item in a state other than the one it started in, and three clicks
    bring back every class as it was. *)
Theorem genre_item_click_cycle l c :
  classList_contains l "active" && classList_contains l "inactive" = false ->
  genre_item_state (genre_item_click l) =
    genre_state_next (genre_item_state l) /\
  classList_contains (genre_item_click l) "active" =
    negb (classList_contains l "active") &&
    negb (classList_contains l "inactive") /\
  classList_contains (genre_item_click l) "inactive" =
    classList_contains l "active" /\
  genre_item_state (genre_item_click l) <> genre_item_state l /\
  genre_item_state (genre_item_click (genre_item_click l)) <>
    genre_item_state l /\
  classList_contains
    (genre_item_click (genre_item_click (genre_item_click l))) c =
  classList_contains l c.
Proof.
  intros Hboth.
  split; [apply genre_item_state_click|].
  split; [now rewrite contains_genre_item_click|].
  split; [now rewrite contains_genre_item_click|].
  split; [|split].
  - rewrite genre_item_state_click.
    destruct (genre_item_state l); discriminate.
  - rewrite !genre_item_state_click.
    destruct (genre_item_state l); discriminate.
  - rewrite !contains_genre_item_click.
    cbn [String.eqb Ascii.eqb Bool.eqb].
    revert Hboth.
    destruct (String.eqb_spec c "active") as [Hca | Hca];
      [rewrite Hca|
       destruct (String.eqb_spec c "inactive") as [Hci | Hci];
         [rewrite Hci|reflexivity]];
      destruct (classList_contains l "active"),
               (classList_contains l "inactive");
      intros Hboth; try reflexivity; discriminate Hboth.
Qed.

Lemma genre_item_click_cycle_witness :
  genre_item_state (genre_item_click ["list_item"; "active"]%string) =
    GenreExcluded /\
  classList_contains (genre_item_click ["list_item"; "active"]%string)
    "active" = false /\
  classList_contains (genre_item_click ["list_item"; "active"]%string)
    "inactive" = true /\
  genre_item_state (genre_item_click ["list_item"; "active"]%string) <>
    genre_item_state ["list_item"; "active"]%string /\
  genre_item_state
    (genre_item_click (genre_item_click ["list_item"; "active"]%string)) <>
    genre_item_state ["list_item"; "active"]%string /\
  classList_contains
    (genre_item_click (genre_item_click (genre_item_click
       ["list_item"; "active"]%string))) "list_item" =
  classList_contains ["list_item"; "active"]%string "list_item".
Proof.
  apply (genre_item_click_cycle ["list_item"; "active"]%string "list_item").
  reflexivity.
Defined.

(** X19. After any clicks on the theme buttons the page shows the state of
    the last one: the body has [dark-theme] exactly when it was the light
    button, that button is hidden and the other one is shown, so exactly
    one of the two buttons is hidden, whatever the page was like before. *)
Theorem theme_follows_last_click p clicks b :
  let p' := fold_left theme_click (clicks ++ [b]) p in
  classList_contains (page_body p') "dark-theme" =
    match b with LightButton => true | DarkButton => false end /\
  classList_contains (light_button p') "d-none" =
    match b with LightButton => true | DarkButton => false end /\
  classList_contains (dark_button p') "d-none" =
    match b with LightButton => false | DarkButton => true end.
Proof.
  cbv zeta. rewrite fold_left_app. cbn [fold_left].
  destruct b; cbn [theme_click page_body light_button dark_button];
    rewrite ?contains_add, ?contains_remove, ?String.eqb_refl;
    cbn [negb]; rewrite ?Bool.orb_true_r, ?Bool.andb_false_r; auto.
Qed.

(** X20. The filter button keeps its label and icon in step with the filter
    body: every click flips whether the body is hidden, and after it the
    label is [Hide] and the icon [fa-minus] when the body is shown, [Show]
    and [fa-plus] when it is hidden, never both icons. *)
Theorem filter_btn_click_consistent p :
  let p' := filter_btn_click p in
  let hidden := classList_contains (filter_body p') "d-none" in
  hidden = negb (classList_contains (filter_body p) "d-none") /\
  filter_text p' = (if hidden then "Show" else "Hide")%string /\
  classList_contains (filter_icon p') "fa-plus" = hidden /\
  classList_contains (filter_icon p') "fa-minus" = negb hidden.
Proof.
  cbv zeta. unfold filter_btn_click.
  destruct (classList_contains (filter_body p) "d-none") eqn:Hh;
    cbn [filter_body filter_icon filter_text];
    rewrite ?contains_add, ?contains_remove, ?contains_add, ?Hh;
    cbn [String.eqb Ascii.eqb Bool.eqb negb andb orb];
    rewrite ?Bool.orb_true_r, ?Bool.andb_false_r, ?Bool.andb_true_r,
      ?Bool.orb_false_r;
    repeat split; reflexivity.
Qed.

(** X21. [fetchWithTimeout] does not judge the answer: a response that
    arrives before the timer fires is returned as it is, whatever its
    status, after exactly its latency, with the timer cleared and nothing
    aborted. Only [fetchWithRetry] turns a status that is not a success into
    an error. *)
Theorem fetchWithTimeout_returns_any_status url options timeout w latency r :
  transport w (calls w) = Responds latency r ->
  latency < timer_delay (default 10000 timeout) ->
  exists w',
    fetchWithTimeout url options timeout w = Some (Normal r, w') /\
    clock w' = clock w + latency /\
    aborts (new_events w w') = [] /\
    cleared_ids (new_events w w') = armed_ids (new_events w w') /\
    (forall t, In t (timers w') -> In t (timers w)).
Proof.
  intros Ho Hlat. rewrite fetchWithTimeout_run.
  eexists. split; [|split; [|split; [|split]]].
  - rewrite Ho. cbn [attempt_completion].
    destruct (Z.ltb_spec latency (timer_delay (default 10000 timeout)));
      [reflexivity|lia].
  - unfold attempt_world. cbn [clock]. rewrite Ho. cbn [elapsed].
    destruct (Z.ltb_spec latency (timer_delay (default 10000 timeout)));
      [reflexivity|lia].
  - erewrite new_events_app by reflexivity.
    unfold attempt_events. rewrite Ho. cbn [on_time].
    destruct (Z.ltb_spec latency (timer_delay (default 10000 timeout)));
      [reflexivity|lia].
  - erewrite new_events_app by reflexivity.
    now rewrite cleared_ids_attempt, armed_ids_attempt.
  - unfold attempt_world. cbn [timers]. intros t Ht.
    now apply drop_timer_incl in Ht.
Qed.

Lemma fetchWithTimeout_returns_any_status_witness :
  exists w',
    fetchWithTimeout "https://x/y" None (Some 500) (idle missing_then_found) =
      Some (Normal (http_response 404 ""), w') /\
    clock w' = clock (idle missing_then_found) + 35 /\
    aborts (new_events (idle missing_then_found) w') = [] /\
    cleared_ids (new_events (idle missing_then_found) w') =
      armed_ids (new_events (idle missing_then_found) w') /\
    (forall t, In t (timers w') -> In t (timers (idle missing_then_found))).
Proof.
  apply (fetchWithTimeout_returns_any_status "https://x/y" None (Some 500)
           (idle missing_then_found) 35 (http_response 404 "")).
  - reflexivity.
  - unfold timer_delay. simpl. lia.
Defined.
